(** * Chain.js and FileKeyValueStore.js: a shallow embedding

    The client-side chain object of the SDK ([src/lib/Chain.js]) and the
    file-per-key store ([src/lib/FileKeyValueStore.js]).

    JavaScript objects are references: the peer array of a chain lives in
    a heap of arrays and the chain holds its location, so that the
    identity test [peers === this._peers] and the sharing of the array
    literal of the class body can be stated.  Promises are modelled by
    their settlement: the first [resolve] or [reject] wins, later ones
    are ignored.  [Member.js], [Peer.js] and [api.js] are not among the
    sources: a peer is the record of its constructor arguments, and the
    methods of a member are parameters ([MemberModule]). *)

From Stdlib Require DecimalString.
From stdpp Require Import gmap strings list fin_maps.


(** ** JavaScript values and promises *)

(** A reference-typed slot: [undefined], [null] or an object. *)
Inductive jsref (A : Type) : Type :=
  | js_undefined
  | js_null
  | js_obj (a : A).
Arguments js_undefined {A}.
Arguments js_null {A}.
Arguments js_obj {A} a.

(** [!v] is false exactly for an object ([undefined] and [null] are
    falsy, every object is truthy). *)
Definition truthy {A} (v : jsref A) : bool :=
  match v with js_obj _ => true | _ => false end.

(** [v !== undefined] *)
Definition strict_ne_undefined {A} (v : jsref A) : bool :=
  match v with js_undefined => false | _ => true end.

(** An [Error] object, identified by its message. *)
Definition Error := string.

(** A settled promise. *)
Inductive Settled (A : Type) : Type :=
  | Fulfilled (a : A)
  | Rejected (e : Error).
Arguments Fulfilled {A} a.
Arguments Rejected {A} e.

(** The state of a promise under construction: [None] is pending. *)
Definition PromiseState (A : Type) := option (Settled A).

(** [resolve(a)] and [reject(e)] of a promise executor: they settle a
    pending promise and do nothing to a settled one. *)
Definition settle {A} (o : Settled A) (p : PromiseState A) : PromiseState A :=
  match p with
  | None => Some o
  | Some _ => p
  end.

Definition resolve {A} (a : A) := settle (Fulfilled a).
Definition reject {A} (e : Error) := @settle A (Rejected e).

(** ** Peers, members and the chain object *)

(** [new Peer(url, chain, pem)]: the url, the name of the owning chain
    (a back reference) and the optional certificate. *)
Record Peer := mkPeer {
  peer_url : string;
  peer_chain : string;
  peer_pem : jsref string
}.

Definition getUrl (p : Peer) : string := peer_url p.

(** [new Member(name, chain)]: a member object is identified by the
    order of its construction, [member_id]. *)
Record Member := mkMember {
  member_id : nat;
  member_name : string
}.

(** [new MemberServices(url, pem)] *)
Record MemberServices := mkMemberServices {
  ms_url : string;
  ms_pem : jsref string
}.

(** A key-value store object, identified by its root directory. *)
Record KeyValueStore := mkKeyValueStore {
  kvs_dir : string
}.

(** Locations of arrays in the heap. *)
Definition loc := nat.

(** The heap of peer arrays. Arrays are allocated at the end and never
    freed. *)
Abbreviation Heap := (list (list Peer)).

Definition heap_read (h : Heap) (l : loc) : list Peer := default [] (h !! l).

Definition heap_alloc (a : list Peer) (h : Heap) : loc * Heap :=
  (length h, h ++ [a]).

(** The fields of a chain object, as [this] sees them (own property or
    inherited from the class body). [_peers] is a reference to an array
    in the heap; [_members] holds the own properties of the cache
    object. *)
Record Chain := mkChain {
  _name : string;
  _peers : loc;
  _securityEnabled : bool;
  _members : gmap string Member;
  _tcertBatchSize : nat;
  _registrar : jsref Member;
  _memberServices : jsref MemberServices;
  _keyValStore : jsref KeyValueStore;
  _devMode : bool;
  _preFetchMode : bool;
  _deployWaitTime : nat;
  _invokeWaitTime : nat
}.

(** The class body is one object literal, evaluated once when the module
    is loaded, and [api.Chain.extend] makes its properties the
    properties of the prototype.  Its [_peers: []] is therefore one
    array, which every instance reaches through the prototype until an
    assignment to [this._peers] gives the instance a property of its
    own (the constructor makes such an assignment for [_members], and
    for no other field). *)
Definition class_peers : loc := 0.

(** The heap after the module is loaded: the array of the class body,
    empty. *)
Definition module_heap : Heap := [ [] ].

(** [constructor(name)] assigns [_name] and a fresh [_members]; all the
    other fields are the ones of the class body. *)
Definition constructor (name : string) : Chain :=
  {| _name := name;
     _peers := class_peers;
     _securityEnabled := true;
     _members := ∅;
     _tcertBatchSize := 200;
     _registrar := js_null;
     _memberServices := js_null;
     _keyValStore := js_null;
     _devMode := false;
     _preFetchMode := true;
     _deployWaitTime := 20;
     _invokeWaitTime := 5 |}.

Definition getName (this : Chain) : string := _name this.

Definition set_peers (l : loc) (this : Chain) : Chain :=
  {| _name := _name this;
     _peers := l;
     _securityEnabled := _securityEnabled this;
     _members := _members this;
     _tcertBatchSize := _tcertBatchSize this;
     _registrar := _registrar this;
     _memberServices := _memberServices this;
     _keyValStore := _keyValStore this;
     _devMode := _devMode this;
     _preFetchMode := _preFetchMode this;
     _deployWaitTime := _deployWaitTime this;
     _invokeWaitTime := _invokeWaitTime this |}.

Definition set_members (m : gmap string Member) (this : Chain) : Chain :=
  {| _name := _name this;
     _peers := _peers this;
     _securityEnabled := _securityEnabled this;
     _members := m;
     _tcertBatchSize := _tcertBatchSize this;
     _registrar := _registrar this;
     _memberServices := _memberServices this;
     _keyValStore := _keyValStore this;
     _devMode := _devMode this;
     _preFetchMode := _preFetchMode this;
     _deployWaitTime := _deployWaitTime this;
     _invokeWaitTime := _invokeWaitTime this |}.

(** [a.push(peer)] on the array at [l]: the array changes in place. *)
Definition array_push (l : loc) (peer : Peer) (h : Heap) : Heap :=
  <[l := heap_read h l ++ [peer]]> h.

Definition reference_error_Peer : Error := "ReferenceError: Peer is not defined".

(** [new Peer(url, this, pem)] inside [Chain.js]: the file requires
    [api], [utils], [url], [net], [util], [MemberServices] and [Member]
    and never binds [Peer], so the expression throws. *)
Definition new_Peer (url : string) (this : Chain) (pem : jsref string)
  : Error + Peer :=
  inl reference_error_Peer.

(** [addPeer(url, pem)]: the exception of [new Peer] leaves the method
    before the [push]. *)
Definition addPeer (url : string) (pem : jsref string) (this : Chain) (h : Heap)
  : (Error + Peer) * Heap :=
  match new_Peer url this pem with
  | inl err => (inl err, h)
  | inr peer => (inr peer, array_push (_peers this) peer h)
  end.

(** [getPeers()] returns the reference; [peer_list] reads the array
    behind it. *)
Definition getPeers (this : Chain) : loc := _peers this.

Definition peer_list (this : Chain) (h : Heap) : list Peer :=
  heap_read h (getPeers this).

Definition getMemberServices (this : Chain) : jsref MemberServices :=
  _memberServices this.

(** [setMemberServices(memberServices)] *)
Definition setMemberServices (ms : jsref MemberServices) (this : Chain) : Chain :=
  {| _name := _name this;
     _peers := _peers this;
     _securityEnabled := _securityEnabled this;
     _members := _members this;
     _tcertBatchSize := _tcertBatchSize this;
     _registrar := _registrar this;
     _memberServices := ms;
     _keyValStore := _keyValStore this;
     _devMode := _devMode this;
     _preFetchMode := _preFetchMode this;
     _deployWaitTime := _deployWaitTime this;
     _invokeWaitTime := _invokeWaitTime this |}.

(** [setMemberServicesUrl(url, pem)] *)
Definition setMemberServicesUrl (url : string) (pem : jsref string) (this : Chain)
  : Chain :=
  setMemberServices (js_obj (mkMemberServices url pem)) this.

(** [isSecurityEnabled()]: [this._memberServices !== undefined] *)
Definition isSecurityEnabled (this : Chain) : bool :=
  strict_ne_undefined (_memberServices this).

Definition getKeyValueStore (this : Chain) : jsref KeyValueStore :=
  _keyValStore this.

(** [setKeyValueStore(keyValStore)] *)
Definition setKeyValueStore (kvs : jsref KeyValueStore) (this : Chain) : Chain :=
  {| _name := _name this;
     _peers := _peers this;
     _securityEnabled := _securityEnabled this;
     _members := _members this;
     _tcertBatchSize := _tcertBatchSize this;
     _registrar := _registrar this;
     _memberServices := _memberServices this;
     _keyValStore := kvs;
     _devMode := _devMode this;
     _preFetchMode := _preFetchMode this;
     _deployWaitTime := _deployWaitTime this;
     _invokeWaitTime := _invokeWaitTime this |}.

(** ** Transaction dispatch: [sendTransaction]

    Node runs the callbacks of [sendTransaction] one at a time, each to
    completion.  A world holds the chain, the heap, the sockets that are
    open with their listeners, and the log of what has been done to the
    outside: signals on event emitters, socket operations and calls of a
    peer's own [sendTransaction]. *)

Definition Transaction := string.
Definition EventEmitter := nat.

Inductive Effect : Type :=
  | EmitError (em : EventEmitter) (err : Error)
  | SocketConnect (url : string)
  | SocketDestroy (url : string)
  | PeerSendTransaction (p : Peer) (tx : Transaction) (em : EventEmitter)
  | UncaughtTypeError.

(** The socket [client] of one attempt, with the variables its listeners
    close over: the array [peers] captured when the dispatch began, the
    index [pidx], the transaction and the emitter. *)
Record Socket := mkSocket {
  sk_peers : loc;
  sk_pidx : nat;
  sk_tx : Transaction;
  sk_emitter : EventEmitter;
  sk_url : string
}.

Record World := mkWorld {
  chain : Chain;
  heap : Heap;
  sockets : list Socket;
  log : list Effect
}.

Definition nat_to_string (n : nat) : string :=
  DecimalString.NilZero.string_of_uint (Nat.to_uint n).

(** ["None of " + peers.length + " peers reponding"] *)
Definition none_responding (n : nat) : Error :=
  "None of " +:+ nat_to_string n +:+ " peers reponding".

(** [util.format("chain %s has no peers", this.getName())] *)
Definition has_no_peers (name : string) : Error :=
  "chain " +:+ name +:+ " has no peers".

(** [eventEmitter.emit('error', new Error(msg))] *)
Definition emit_error (em : EventEmitter) (msg : string) (w : World) : World :=
  {| chain := chain w; heap := heap w; sockets := sockets w;
     log := log w ++ [EmitError em msg] |}.

(** [client.destroy()] on the socket at position [k]: its listeners will
    not run again. *)
Definition destroy (k : nat) (sk : Socket) (w : World) : World :=
  {| chain := chain w; heap := heap w; sockets := delete k (sockets w);
     log := log w ++ [SocketDestroy (sk_url sk)] |}.

(** [trySendTransaction(pidx)]: past the end of [peers] the error is
    emitted; otherwise a new socket is connected to the peer at [pidx]
    and the function returns, leaving its listeners behind.  The length
    and the element are read from the array as it is at the call.
    This is the function on peers whose url [client.connect] accepts;
    [trySendTransaction_checked] below has the exception that
    [client.connect] throws on a url without a legal port. *)
Definition trySendTransaction (peers : loc) (tx : Transaction) (em : EventEmitter)
    (pidx : nat) (w : World) : World :=
  let ps := heap_read (heap w) peers in
  if decide (length ps ≤ pidx) then
    emit_error em (none_responding (length ps)) w
  else
    match ps !! pidx with
    | Some p =>
        {| chain := chain w; heap := heap w;
           sockets := sockets w ++ [mkSocket peers pidx tx em (getUrl p)];
           log := log w ++ [SocketConnect (getUrl p)] |}
    | None => w (* not reached: [pidx] is below the length *)
    end.

(** [tryNext], the listener of ['timeout'] and ['error']. *)
Definition tryNext (k : nat) (sk : Socket) (w : World) : World :=
  trySendTransaction (sk_peers sk) (sk_tx sk) (sk_emitter sk) (sk_pidx sk + 1)
    (destroy k sk w).

(** The callback of [client.connect]: the rotation builds a new array
    ([slice] and [concat] copy) and assigns it to [this._peers]; the
    socket is destroyed and [peers[pidx].sendTransaction] is called, an
    uncaught [TypeError] if the array has no element there. *)
Definition onConnect (k : nat) (sk : Socket) (w : World) : World :=
  let peers := sk_peers sk in
  let pidx := sk_pidx sk in
  let ps := heap_read (heap w) peers in
  let w1 :=
    if (0 <? pidx) && (peers =? _peers (chain w)) then
      let '(l, h) := heap_alloc (drop pidx ps ++ take pidx ps) (heap w) in
      {| chain := set_peers l (chain w); heap := h; sockets := sockets w;
         log := log w |}
    else w in
  let w2 := destroy k sk w1 in
  match ps !! pidx with
  | Some p =>
      {| chain := chain w2; heap := heap w2; sockets := sockets w2;
         log := log w2 ++ [PeerSendTransaction p (sk_tx sk) (sk_emitter sk)] |}
  | None =>
      {| chain := chain w2; heap := heap w2; sockets := sockets w2;
         log := log w2 ++ [UncaughtTypeError] |}
  end.

(** [sendTransaction(tx, eventEmitter)] *)
Definition sendTransaction (tx : Transaction) (em : EventEmitter) (w : World) : World :=
  if decide (length (heap_read (heap w) (_peers (chain w))) = 0) then
    emit_error em (has_no_peers (getName (chain w))) w
  else
    let peers := _peers (chain w) in
    trySendTransaction peers tx em 0 w.

(** What the network reports on a socket. *)
Inductive SocketEvent : Type := ev_timeout | ev_error | ev_connect.

Definition is_failure (ev : SocketEvent) : bool :=
  match ev with ev_connect => false | _ => true end.

(** An event on the socket at position [k] runs the listener registered
    for it; on a position without an open socket nothing runs. *)
Definition deliver (k : nat) (ev : SocketEvent) (w : World) : World :=
  match sockets w !! k with
  | None => w
  | Some sk =>
      match ev with
      | ev_connect => onConnect k sk w
      | ev_timeout | ev_error => tryNext k sk w
      end
  end.

(** One turn of the event loop: a call of the application or an event of
    the network. *)
Inductive Action : Type :=
  | CallSendTransaction (tx : Transaction) (em : EventEmitter)
  | CallAddPeer (url : string) (pem : jsref string)
  | OnSocket (k : nat) (ev : SocketEvent).

(** The world after a turn; what [addPeer] throws is left to the
    caller here, [exec_checked] below keeps it. *)
Definition exec (a : Action) (w : World) : World :=
  match a with
  | CallSendTransaction tx em => sendTransaction tx em w
  | CallAddPeer url pem =>
      {| chain := chain w; heap := snd (addPeer url pem (chain w) (heap w));
         sockets := sockets w; log := log w |}
  | OnSocket k ev => deliver k ev w
  end.

Fixpoint run (acts : list Action) (w : World) : World :=
  match acts with
  | [] => w
  | a :: acts => run acts (exec a w)
  end.

(** The events of one dispatch, all on the socket position [n]. *)
Definition on_socket (n : nat) (evs : list SocketEvent) : list Action :=
  map (OnSocket n) evs.

Definition is_terminal (e : Effect) : bool :=
  match e with
  | EmitError _ _ | PeerSendTransaction _ _ _ => true
  | _ => false
  end.

Definition terminal_count (l : list Effect) : nat :=
  length (filter (fun e => is_terminal e = true) l).


(** ** The dispatch with the exceptions of its calls

    [trySendTransaction] above is the function on a peer whose url
    [client.connect] accepts.  [client.connect(p.port, p.hostname, cb)]
    throws, before anything is opened, when [p.port] is not a legal
    port; [url.parse] gives [null] for a url without one.  The
    functions below are the dispatch with that exception, and with the
    one of [addPeer]: a call ends the turn of the event loop normally
    or by a throw. *)
Inductive Outcome : Type :=
  | Done (w : World)
  | Thrown (err : Error) (w : World).

Definition outcome_world (o : Outcome) : World :=
  match o with Done w | Thrown _ w => w end.

Section Checked.
(** What [client.connect] throws on the port and the host name of a
    url, if it throws. *)
Variable connect_throws : string → option Error.

(** [trySendTransaction(pidx)]: the socket and its listeners are made,
    then [client.connect] throws or begins to connect. *)
Definition trySendTransaction_checked (peers : loc) (tx : Transaction)
    (em : EventEmitter) (pidx : nat) (w : World) : Outcome :=
  let ps := heap_read (heap w) peers in
  if decide (length ps ≤ pidx) then
    Done (emit_error em (none_responding (length ps)) w)
  else
    match ps !! pidx with
    | Some p =>
        match connect_throws (getUrl p) with
        | Some err => Thrown err w
        | None =>
            Done {| chain := chain w; heap := heap w;
                    sockets := sockets w ++ [mkSocket peers pidx tx em (getUrl p)];
                    log := log w ++ [SocketConnect (getUrl p)] |}
        end
    | None => Done w (* not reached: [pidx] is below the length *)
    end.

(** [tryNext]: a throw of the next attempt leaves the listener after
    the socket was destroyed. *)
Definition tryNext_checked (k : nat) (sk : Socket) (w : World) : Outcome :=
  trySendTransaction_checked (sk_peers sk) (sk_tx sk) (sk_emitter sk) (sk_pidx sk + 1)
    (destroy k sk w).

(** [sendTransaction(tx, eventEmitter)] *)
Definition sendTransaction_checked (tx : Transaction) (em : EventEmitter) (w : World)
  : Outcome :=
  if decide (length (heap_read (heap w) (_peers (chain w))) = 0) then
    Done (emit_error em (has_no_peers (getName (chain w))) w)
  else
    let peers := _peers (chain w) in
    trySendTransaction_checked peers tx em 0 w.

Definition deliver_checked (k : nat) (ev : SocketEvent) (w : World) : Outcome :=
  match sockets w !! k with
  | None => Done w
  | Some sk =>
      match ev with
      | ev_connect => Done (onConnect k sk w)
      | ev_timeout | ev_error => tryNext_checked k sk w
      end
  end.

Definition exec_checked (a : Action) (w : World) : Outcome :=
  match a with
  | CallSendTransaction tx em => sendTransaction_checked tx em w
  | CallAddPeer url pem =>
      let '(r, h) := addPeer url pem (chain w) (heap w) in
      let w' := {| chain := chain w; heap := h; sockets := sockets w; log := log w |} in
      match r with
      | inl err => Thrown err w'
      | inr _ => Done w'
      end
  | OnSocket k ev => deliver_checked k ev w
  end.

(** The turns of the event loop up to the first throw. *)
Fixpoint run_checked (acts : list Action) (w : World) : Outcome :=
  match acts with
  | [] => Done w
  | a :: acts =>
      match exec_checked a w with
      | Done w' => run_checked acts w'
      | Thrown err w' => Thrown err w'
      end
  end.
End Checked.

(** The port that [url.parse] finds in a url: the text after [//] up
    to the next [/] is the authority, and the port is the text after
    its last [:]. *)
Definition is_char (n : nat) (c : Ascii.ascii) : bool := Ascii.nat_of_ascii c =? n.

Fixpoint after_slashes (s : string) : string :=
  match s with
  | String a rest =>
      match rest with
      | String b rest' =>
          if is_char 47 a && is_char 47 b then rest' else after_slashes rest
      | EmptyString => EmptyString
      end
  | EmptyString => EmptyString
  end.

Fixpoint until_slash (s : string) : string :=
  match s with
  | String a rest => if is_char 47 a then EmptyString else String a (until_slash rest)
  | EmptyString => EmptyString
  end.

Fixpoint after_last_colon (found : option string) (s : string) : option string :=
  match s with
  | String a rest =>
      if is_char 58 a then after_last_colon (Some rest) rest
      else after_last_colon found rest
  | EmptyString => found
  end.

Definition url_port (url : string) : option string :=
  after_last_colon None (until_slash (after_slashes url)).

(** The number that a string of decimal digits stands for. *)
Fixpoint digits_value (acc : N) (s : string) : option N :=
  match s with
  | String a rest =>
      let n := Ascii.N_of_ascii a in
      if ((48 <=? n) && (n <=? 57))%N then digits_value (10 * acc + (n - 48))%N rest
      else None
  | EmptyString => Some acc
  end.

(** A legal port is a number from 0 to 65535. *)
Definition has_legal_port (url : string) : bool :=
  match url_port url with
  | Some (String a rest) =>
      match digits_value 0 (String a rest) with
      | Some n => (n <? 65536)%N
      | None => false
      end
  | _ => false
  end.

(** The exception of [client.connect]; of Node's message the url is
    kept. *)
Definition illegal_port (url : string) : Error := "connect: no legal port in " +:+ url.

Definition net_connect (url : string) : option Error :=
  if has_legal_port url then None else Some (illegal_port url).

(** ** Identities: [getMember], [register], [enroll], [registerAndEnroll] *)

(** [self._members[name]] on the cache object [{}]: an own property is a
    cached member; a name that the cache does not own is looked up along
    the prototype chain, where the properties of [Object.prototype] are
    found (all of them truthy); any other name gives [undefined]. *)
Inductive CacheValue : Type :=
  | cv_member (m : Member)
  | cv_inherited (key : string).

Definition Object_prototype_keys : list string :=
  [ "constructor"; "__defineGetter__"; "__defineSetter__"; "hasOwnProperty";
    "__lookupGetter__"; "__lookupSetter__"; "isPrototypeOf";
    "propertyIsEnumerable"; "toString"; "valueOf"; "__proto__";
    "toLocaleString" ].

Definition members_get (name : string) (this : Chain) : option CacheValue :=
  match _members this !! name with
  | Some m => Some (cv_member m)
  | None =>
      if bool_decide (name ∈ Object_prototype_keys) then Some (cv_inherited name)
      else None
  end.

Record RegistrationRequest := mkRegistrationRequest {
  enrollmentID : string;
  affiliation : string
}.

(** What a call of a method returns to its caller: an exception, or a
    promise in the state it will reach ([None]: it never settles). *)
Inductive CallResult : Type :=
  | Throws (e : Error)
  | Returns (p : PromiseState unit).

(** [Member.js] is not part of the sources at hand.  Its methods are the
    parameters of the development: each one reads and writes a state of
    its own, [Env] (the members' fields, the file store, the authority),
    and does not assign to the chain. *)
Class MemberModule := {
  Env : Type;
  Member_restoreState : Member → Chain → Env → Settled unit * Env;
  Member_isEnrolled : Member → Env → bool;
  Member_register : RegistrationRequest → Member → Chain → Env → CallResult * Env;
  Member_enroll : string → Member → Chain → Env → CallResult * Env;
  Member_registerAndEnroll :
    RegistrationRequest → Member → Chain → Env → CallResult * Env
}.

(** The calls into [Member.js], in order. *)
Inductive MemberCall : Type :=
  | NewMember (m : Member)
  | CallRestoreState (m : Member)
  | CallIsEnrolled (m : Member)
  | CallRegister (m : Member) (req : RegistrationRequest)
  | CallEnroll (m : Member) (secret : string)
  | CallRegisterAndEnroll (m : Member) (req : RegistrationRequest).

Definition no_key_value_store : Error :=
  "No key value store was found.  You must first call Chain.configureKeyValueStore or Chain.setKeyValueStore".

Definition no_member_services : Error :=
  "No member services was found.  You must first call Chain.configureMemberServices or Chain.setMemberServices".

(** The error of calling a method that the value does not have. *)
Definition not_a_function (method : string) : Error :=
  "TypeError: member." +:+ method +:+ " is not a function".

Section Identities.
Context `{MemberModule}.

Record State := mkState {
  st_chain : Chain;
  st_env : Env;
  st_next_member : nat;
  st_calls : list MemberCall
}.

Definition called (c : MemberCall) (env : Env) (s : State) : State :=
  {| st_chain := st_chain s; st_env := env;
     st_next_member := st_next_member s;
     st_calls := st_calls s ++ [c] |}.

(** [new Member(name, self)] *)
Definition new_Member (name : string) (s : State) : Member * State :=
  let member := mkMember (st_next_member s) name in
  (member,
   {| st_chain := st_chain s; st_env := st_env s;
      st_next_member := S (st_next_member s);
      st_calls := st_calls s ++ [NewMember member] |}).

(** [self._members[name] = member] *)
Definition cache_member (name : string) (member : Member) (s : State) : State :=
  {| st_chain := set_members (<[name := member]> (_members (st_chain s))) (st_chain s);
     st_env := st_env s;
     st_next_member := st_next_member s;
     st_calls := st_calls s |}.

(** [_getMemberHelper(name)], from the call to the settlement of its
    promise: the cache is read at the call and written in the
    then-callback of [restoreState].  No other call on the chain runs
    in between: the caller awaits the promise before its next call. *)
Definition _getMemberHelper (name : string) (s : State)
  : PromiseState CacheValue * State :=
  match members_get name (st_chain s) with
  | Some member => (resolve member None, s)
  | None =>
      let '(member, s1) := new_Member name s in
      let '(r, env) := Member_restoreState member (st_chain s1) (st_env s1) in
      let s2 := called (CallRestoreState member) env s1 in
      match r with
      | Fulfilled _ => (resolve (cv_member member) None, cache_member name member s2)
      | Rejected err => (reject err None, s2)
      end
  end.

(** [getMember(name)]: neither [reject] is followed by a [return], the
    executor goes on to [_getMemberHelper] in every case. *)
Definition getMember (name : string) (s : State)
  : PromiseState CacheValue * State :=
  let p := None in
  let p := if negb (truthy (_keyValStore (st_chain s)))
           then reject no_key_value_store p else p in
  let p := if negb (truthy (_memberServices (st_chain s)))
           then reject no_member_services p else p in
  let '(q, s1) := _getMemberHelper name s in
  match q with
  | Some (Fulfilled member) => (resolve member p, s1)
  | Some (Rejected err) => (reject err p, s1)
  | None => (p, s1)
  end.

(** [getUser(name)] *)
Definition getUser (name : string) (s : State) := getMember name s.

(** [register(registrationRequest)]: the promise that
    [member.register] returns is dropped; only an exception of the call
    itself reaches [catch]. *)
Definition register (req : RegistrationRequest) (s : State)
  : PromiseState bool * State :=
  let '(q, s1) := getMember (enrollmentID req) s in
  match q with
  | Some (Fulfilled (cv_member m)) =>
      let '(r, env) := Member_register req m (st_chain s1) (st_env s1) in
      let s2 := called (CallRegister m req) env s1 in
      match r with
      | Throws err => (reject err None, s2)
      | Returns _ => (resolve true None, s2)
      end
  | Some (Fulfilled (cv_inherited _)) => (reject (not_a_function "register") None, s1)
  | Some (Rejected err) => (reject err None, s1)
  | None => (None, s1)
  end.

(** [enroll(name, secret)]: the promise of [member.enroll] is returned
    from the [then] callback, so the chain waits for it. *)
Definition enroll (name secret : string) (s : State)
  : PromiseState (option CacheValue) * State :=
  let '(q, s1) := getMember name s in
  match q with
  | Some (Fulfilled (cv_member m)) =>
      let _member := Some (cv_member m) in
      let '(r, env) := Member_enroll secret m (st_chain s1) (st_env s1) in
      let s2 := called (CallEnroll m secret) env s1 in
      match r with
      | Throws err => (reject err None, s2)
      | Returns (Some (Fulfilled _)) => (resolve _member None, s2)
      | Returns (Some (Rejected err)) => (reject err None, s2)
      | Returns None => (None, s2)
      end
  | Some (Fulfilled (cv_inherited _)) =>
      (reject "TypeError: _member.enroll is not a function" None, s1)
  | Some (Rejected err) => (reject err None, s1)
  | None => (None, s1)
  end.

(** [registerAndEnroll(registrationRequest)]: for an enrolled member
    the first callback resolves and returns [undefined]; the second
    callback then calls [resolve(_member)] with [_member] unassigned,
    on a promise that is settled already. *)
Definition registerAndEnroll (req : RegistrationRequest) (s : State)
  : PromiseState (option CacheValue) * State :=
  let p := None in
  let '(q, s1) := getMember (enrollmentID req) s in
  match q with
  | Some (Fulfilled (cv_member m)) =>
      let s2 := called (CallIsEnrolled m) (st_env s1) s1 in
      if Member_isEnrolled m (st_env s1) then
        let p := resolve (Some (cv_member m)) p in
        let _member := None in
        (resolve _member p, s2)
      else
        let _member := Some (cv_member m) in
        let '(r, env) := Member_registerAndEnroll req m (st_chain s2) (st_env s2) in
        let s3 := called (CallRegisterAndEnroll m req) env s2 in
        match r with
        | Throws err => (reject err p, s3)
        | Returns (Some (Fulfilled _)) => (resolve _member p, s3)
        | Returns (Some (Rejected err)) => (reject err p, s3)
        | Returns None => (p, s3)
        end
  | Some (Fulfilled (cv_inherited _)) => (reject (not_a_function "isEnrolled") p, s1)
  | Some (Rejected err) => (reject err p, s1)
  | None => (p, s1)
  end.

End Identities.

(** ** The file store: [FileKeyValueStore.js] *)

Module FileKeyValueStore.

(** What Node's [fs] finds at a path.  The disk is a map from
    normalised paths to the plain files and the directories that were
    made; the root, the working directory and the directories above it
    are always there.  Every file and directory can be read and
    written by the process. *)
Inductive fs_node : Type :=
  | fs_file (data : string)
  | fs_dir.

Inductive errno : Type := ENOENT | EISDIR | ENOTDIR.

Definition errno_code (e : errno) : string :=
  match e with
  | ENOENT => "ENOENT"
  | EISDIR => "EISDIR"
  | ENOTDIR => "ENOTDIR"
  end.

(** The characters [/] and [.] of a path. *)
Definition slash : Ascii.ascii := Ascii.ascii_of_nat 47.
Definition dot : Ascii.ascii := Ascii.ascii_of_nat 46.

(** The paths [..], [../..] and so on. *)
Fixpoint only_parents (p : string) : bool :=
  match p with
  | String a (String b rest) =>
      Ascii.eqb a dot && Ascii.eqb b dot &&
      match rest with
      | EmptyString => true
      | String c rest' => Ascii.eqb c slash && only_parents rest'
      end
  | _ => false
  end.

(** The directories that no one has to make. *)
Definition always_there (p : string) : bool :=
  String.eqb p "/" || String.eqb p "." || only_parents p.

Definition node_at (p : string) (fs : gmap string fs_node) : option fs_node :=
  if always_there p then Some fs_dir else fs !! p.

(** The directories above a path, outermost first: the prefixes of the
    path that end before a [/]. *)
Fixpoint ancestors_from (prefix rest : string) : list string :=
  match rest with
  | EmptyString => []
  | String c rest' =>
      (if Ascii.eqb c slash && negb (String.eqb prefix "") then [prefix] else [])
      ++ ancestors_from (prefix +:+ String c EmptyString) rest'
  end.

Definition ancestors (p : string) : list string := ancestors_from "" p.

(** The way down to a path through the directories above it: the first
    one that is missing stops it with [ENOENT], the first one that is a
    file with [ENOTDIR]. *)
Fixpoint walk (dirs : list string) (fs : gmap string fs_node) : option errno :=
  match dirs with
  | [] => None
  | d :: dirs =>
      match node_at d fs with
      | Some fs_dir => walk dirs fs
      | Some (fs_file _) => Some ENOTDIR
      | None => Some ENOENT
      end
  end.

(** [fs.readFile(p, 'utf8', cb)]: the arguments of [cb]. *)
Definition readFile (p : string) (fs : gmap string fs_node) : errno + string :=
  match walk (ancestors p) fs with
  | Some err => inl err
  | None =>
      match node_at p fs with
      | None => inl ENOENT
      | Some fs_dir => inl EISDIR
      | Some (fs_file data) => inr data
      end
  end.

(** [fs.writeFile(p, value, cb)]: the argument of [cb] and the disk
    afterwards.  The file is made when it is missing, the directories
    above it are not. *)
Definition writeFile (p value : string) (fs : gmap string fs_node)
  : option errno * gmap string fs_node :=
  match walk (ancestors p) fs with
  | Some err => (Some err, fs)
  | None =>
      match node_at p fs with
      | Some fs_dir => (Some EISDIR, fs)
      | _ => (None, <[p := fs_file value]> fs)
      end
  end.

Definition mkdir_missing (fs : gmap string fs_node) (d : string)
  : gmap string fs_node :=
  match node_at d fs with
  | None => <[d := fs_dir]> fs
  | Some _ => fs
  end.

(** [fs.mkdirsSync(dir)], the disk afterwards: nothing is made when
    something is at [dir] or when a file is in the way above it (the
    call throws unless a directory is at [dir]); otherwise the
    directory is made, with the directories above it that are
    missing. *)
Definition mkdirsSync (dir : string) (fs : gmap string fs_node)
  : gmap string fs_node :=
  match node_at dir fs with
  | Some _ => fs
  | None =>
      match walk (ancestors dir) fs with
      | Some ENOTDIR => fs
      | _ => foldl mkdir_missing fs (ancestors dir ++ [dir])
      end
  end.

Section WithPath.
(** Node's [path.join]. *)
Variable path_join : string → string → string.

(** [constructor(dir)]: the store and the disk afterwards.  On a
    directory that exists nothing is made. *)
Definition constructor (dir : string) (fs : gmap string fs_node)
  : KeyValueStore * gmap string fs_node :=
  (mkKeyValueStore dir, mkdirsSync dir fs).

(** [getValue(name)]: [null] for a file that does not exist; the
    [reject] of the other errors is not followed by a [return]. *)
Definition getValue (this : KeyValueStore) (name : string)
    (fs : gmap string fs_node) : PromiseState (jsref string) :=
  let p := path_join (kvs_dir this) name in
  match readFile p fs with
  | inl err =>
      if negb (String.eqb (errno_code err) "ENOENT") then
        let pr := reject (errno_code err) None in
        resolve js_undefined pr
      else resolve js_null None
  | inr data => resolve (js_obj data) None
  end.

(** [setValue(name, value)] *)
Definition setValue (this : KeyValueStore) (name value : string)
    (fs : gmap string fs_node) : PromiseState bool * gmap string fs_node :=
  let p := path_join (kvs_dir this) name in
  match writeFile p value fs with
  | (Some err, fs') => (reject (errno_code err) None, fs')
  | (None, fs') => (resolve true None, fs')
  end.

End WithPath.

(** [path.join] on a directory and a plain file name. *)
Definition join_plain (dir name : string) : string := dir +:+ "/" +:+ name.

(** The file system after [new FileKeyValueStore("/tmp/keyValStore")]
    on an empty disk. *)
Definition fresh_fs : gmap string fs_node :=
  snd (constructor "/tmp/keyValStore" ∅).

End FileKeyValueStore.

(** ** Vocabulary of the statements *)

(** The log of the attempts that failed on the peers [qs]: each was
    connected to, then destroyed by [tryNext]. *)
Definition failed_attempts (qs : list Peer) : list Effect :=
  flat_map (fun p => [SocketConnect (getUrl p); SocketDestroy (getUrl p)]) qs.

(** The world in which the dispatch of [tx], begun in [w] on the array
    at [l], waits on its attempt number [k], on the peer [p]. *)
Definition probing (w : World) (l : loc) (tx : Transaction) (em : EventEmitter)
    (qs : list Peer) (k : nat) (p : Peer) : World :=
  {| chain := chain w; heap := heap w;
     sockets := sockets w ++ [mkSocket l k tx em (getUrl p)];
     log := log w ++ failed_attempts qs ++ [SocketConnect (getUrl p)] |}.

(** The world after a connection on attempt [k] of an undisturbed
    dispatch. *)
Definition connected (w : World) (tx : Transaction) (em : EventEmitter)
    (ps : list Peer) (k : nat) (p : Peer) : World :=
  {| chain := match k with 0 => chain w | S _ => set_peers (length (heap w)) (chain w) end;
     heap := match k with 0 => heap w | S _ => heap w ++ [drop k ps ++ take k ps] end;
     sockets := sockets w;
     log := log w ++ failed_attempts (take k ps)
            ++ [SocketConnect (getUrl p); SocketDestroy (getUrl p);
                PeerSendTransaction p tx em] |}.

(** Three peers of a chain [c], and the chain with two and with three
    of them in its array. *)
Definition P0 : Peer := mkPeer "grpc://h0:7051" "c" js_undefined.
Definition P1 : Peer := mkPeer "grpc://h1:7051" "c" js_undefined.
Definition P2 : Peer := mkPeer "grpc://h2:7051" "c" js_undefined.


Definition three_peers : World :=
  {| chain := constructor "c"; heap := [ [P0; P1; P2] ]; sockets := []; log := [] |}.


(** The member calls that go to the authority to register or enroll. *)
Definition is_authority_call (c : MemberCall) : bool :=
  match c with
  | CallRegister _ _ | CallEnroll _ _ | CallRegisterAndEnroll _ _ => true
  | _ => false
  end.

(** [c] is the construction of a member for [name]. *)
Definition constructs (name : string) (c : MemberCall) : bool :=
  match c with
  | NewMember m => String.eqb (member_name m) name
  | _ => false
  end.

(** The state left by a sequence of [getMember] calls. *)
Fixpoint getMembers `{MemberModule} (names : list string) (s : State) : State :=
  match names with
  | [] => s
  | name :: names => getMembers names (snd (getMember name s))
  end.

(** A [Member.js] whose store holds no state for anybody and whose
    authority turns every registration down: [restoreState] fulfils,
    nobody is enrolled, and the promises of [register] and
    [registerAndEnroll] reject. *)
Definition refusing_authority : MemberModule :=
  {| Env := unit;
     Member_restoreState := λ _ _ env, (Fulfilled (), env);
     Member_isEnrolled := λ _ _, false;
     Member_register := λ _ _ _ env, (Returns (Some (Rejected "registration refused")), env);
     Member_enroll := λ _ _ _ env, (Returns (Some (Rejected "enrollment refused")), env);
     Member_registerAndEnroll :=
       λ _ _ _ env, (Returns (Some (Rejected "registration refused")), env) |}.

(** A [Member.js] in which every member is enrolled already; the
    environment counts the calls that reach the authority. *)
Definition all_enrolled : MemberModule :=
  {| Env := nat;
     Member_restoreState := λ _ _ env, (Fulfilled (), env);
     Member_isEnrolled := λ _ _, true;
     Member_register := λ _ _ _ env, (Returns (Some (Fulfilled ())), S env);
     Member_enroll := λ _ _ _ env, (Returns (Some (Fulfilled ())), S env);
     Member_registerAndEnroll := λ _ _ _ env, (Returns (Some (Fulfilled ())), S env) |}.

Definition a_store : KeyValueStore := mkKeyValueStore "/tmp/keyValStore".

(** A chain with a store and member services set. *)
Definition configured_chain : Chain :=
  setMemberServicesUrl "grpc://localhost:7054" js_undefined
    (setKeyValueStore (js_obj a_store) (constructor "c")).

(** A chain with a store set and no member services. *)
Definition chain_without_services : Chain :=
  setKeyValueStore (js_obj a_store) (constructor "c").

Definition alice : Member := mkMember 0 "alice".

Definition alice_request : RegistrationRequest :=
  mkRegistrationRequest "alice" "bank_a".

(** ** The remaining accessors of the chain *)

(** [getRegistrar()] *)
Definition getRegistrar (this : Chain) : jsref Member := _registrar this.

(** [setRegistrar(registrar)] *)
Definition setRegistrar (registrar : jsref Member) (this : Chain) : Chain :=
  {| _name := _name this;
     _peers := _peers this;
     _securityEnabled := _securityEnabled this;
     _members := _members this;
     _tcertBatchSize := _tcertBatchSize this;
     _registrar := registrar;
     _memberServices := _memberServices this;
     _keyValStore := _keyValStore this;
     _devMode := _devMode this;
     _preFetchMode := _preFetchMode this;
     _deployWaitTime := _deployWaitTime this;
     _invokeWaitTime := _invokeWaitTime this |}.

(** [isPreFetchMode()] *)
Definition isPreFetchMode (this : Chain) : bool := _preFetchMode this.

(** [setPreFetchMode(preFetchMode)] *)
Definition setPreFetchMode (preFetchMode : bool) (this : Chain) : Chain :=
  {| _name := _name this;
     _peers := _peers this;
     _securityEnabled := _securityEnabled this;
     _members := _members this;
     _tcertBatchSize := _tcertBatchSize this;
     _registrar := _registrar this;
     _memberServices := _memberServices this;
     _keyValStore := _keyValStore this;
     _devMode := _devMode this;
     _preFetchMode := preFetchMode;
     _deployWaitTime := _deployWaitTime this;
     _invokeWaitTime := _invokeWaitTime this |}.

(** [isDevMode()] *)
Definition isDevMode (this : Chain) : bool := _devMode this.

(** [setDevMode(devMode)] *)
Definition setDevMode (devMode : bool) (this : Chain) : Chain :=
  {| _name := _name this;
     _peers := _peers this;
     _securityEnabled := _securityEnabled this;
     _members := _members this;
     _tcertBatchSize := _tcertBatchSize this;
     _registrar := _registrar this;
     _memberServices := _memberServices this;
     _keyValStore := _keyValStore this;
     _devMode := devMode;
     _preFetchMode := _preFetchMode this;
     _deployWaitTime := _deployWaitTime this;
     _invokeWaitTime := _invokeWaitTime this |}.

(** [getDeployWaitTime()] *)
Definition getDeployWaitTime (this : Chain) : nat := _deployWaitTime this.

(** [setDeployWaitTime(secs)] *)
Definition setDeployWaitTime (secs : nat) (this : Chain) : Chain :=
  {| _name := _name this;
     _peers := _peers this;
     _securityEnabled := _securityEnabled this;
     _members := _members this;
     _tcertBatchSize := _tcertBatchSize this;
     _registrar := _registrar this;
     _memberServices := _memberServices this;
     _keyValStore := _keyValStore this;
     _devMode := _devMode this;
     _preFetchMode := _preFetchMode this;
     _deployWaitTime := secs;
     _invokeWaitTime := _invokeWaitTime this |}.

(** [getInvokeWaitTime()] *)
Definition getInvokeWaitTime (this : Chain) : nat := _invokeWaitTime this.

(** [setInvokeWaitTime(secs)] *)
Definition setInvokeWaitTime (secs : nat) (this : Chain) : Chain :=
  {| _name := _name this;
     _peers := _peers this;
     _securityEnabled := _securityEnabled this;
     _members := _members this;
     _tcertBatchSize := _tcertBatchSize this;
     _registrar := _registrar this;
     _memberServices := _memberServices this;
     _keyValStore := _keyValStore this;
     _devMode := _devMode this;
     _preFetchMode := _preFetchMode this;
     _deployWaitTime := _deployWaitTime this;
     _invokeWaitTime := secs |}.

(** [getTCertBatchSize()] *)
Definition getTCertBatchSize (this : Chain) : nat := _tcertBatchSize this.

(** [setTCertBatchSize(batchSize)] *)
Definition setTCertBatchSize (batchSize : nat) (this : Chain) : Chain :=
  {| _name := _name this;
     _peers := _peers this;
     _securityEnabled := _securityEnabled this;
     _members := _members this;
     _tcertBatchSize := batchSize;
     _registrar := _registrar this;
     _memberServices := _memberServices this;
     _keyValStore := _keyValStore this;
     _devMode := _devMode this;
     _preFetchMode := _preFetchMode this;
     _deployWaitTime := _deployWaitTime this;
     _invokeWaitTime := _invokeWaitTime this |}.

(** A call of one of the setters of the chain. *)
Inductive Setter : Type :=
  | SetRegistrar (registrar : jsref Member)
  | SetMemberServices (ms : jsref MemberServices)
  | SetMemberServicesUrl (url : string) (pem : jsref string)
  | SetKeyValueStore (kvs : jsref KeyValueStore)
  | SetPreFetchMode (b : bool)
  | SetDevMode (b : bool)
  | SetDeployWaitTime (secs : nat)
  | SetInvokeWaitTime (secs : nat)
  | SetTCertBatchSize (n : nat).

Definition apply_setter (c : Setter) (this : Chain) : Chain :=
  match c with
  | SetRegistrar r => setRegistrar r this
  | SetMemberServices ms => setMemberServices ms this
  | SetMemberServicesUrl url pem => setMemberServicesUrl url pem this
  | SetKeyValueStore kvs => setKeyValueStore kvs this
  | SetPreFetchMode b => setPreFetchMode b this
  | SetDevMode b => setDevMode b this
  | SetDeployWaitTime secs => setDeployWaitTime secs this
  | SetInvokeWaitTime secs => setInvokeWaitTime secs this
  | SetTCertBatchSize n => setTCertBatchSize n this
  end.

(** One call on the chain that concerns identities or configuration. *)
Inductive Op : Type :=
  | OpSet (c : Setter)
  | OpGetMember (name : string)
  | OpGetUser (name : string)
  | OpRegister (req : RegistrationRequest)
  | OpEnroll (name secret : string)
  | OpRegisterAndEnroll (req : RegistrationRequest).

(** The state after a call has run to the end, its promise settled. *)
Definition step_op `{MemberModule} (o : Op) (s : State) : State :=
  match o with
  | OpSet c =>
      {| st_chain := apply_setter c (st_chain s); st_env := st_env s;
         st_next_member := st_next_member s; st_calls := st_calls s |}
  | OpGetMember name => snd (getMember name s)
  | OpGetUser name => snd (getUser name s)
  | OpRegister req => snd (register req s)
  | OpEnroll name secret => snd (enroll name secret s)
  | OpRegisterAndEnroll req => snd (registerAndEnroll req s)
  end.

(** Calls made one after another, each one awaited: a call is made
    when the promise of the call before it has settled. *)
Fixpoint run_ops `{MemberModule} (ops : list Op) (s : State) : State :=
  match ops with
  | [] => s
  | o :: ops => run_ops ops (step_op o s)
  end.

(** Every cached member sits under its own name, was constructed
    earlier, and is cached under that one name only. *)
Definition cache_wf `{MemberModule} (s : State) : Prop :=
  (∀ name m, _members (st_chain s) !! name = Some m →
     member_name m = name ∧ member_id m < st_next_member s)
  ∧ (∀ n1 n2 m1 m2,
       _members (st_chain s) !! n1 = Some m1 →
       _members (st_chain s) !! n2 = Some m2 →
       member_id m1 = member_id m2 → n1 = n2).

(** Is the error one of the two configuration errors of [getMember]? *)
Definition is_configuration_error (err : Error) : bool :=
  String.eqb err no_key_value_store || String.eqb err no_member_services.

(** ** More vocabulary for the dispatch *)

(** [h'] has every array of [h], possibly with elements pushed. *)
Definition heap_extends (h h' : Heap) : Prop :=
  ∀ l, ∃ extra, heap_read h' l = heap_read h l ++ extra.

(** The socket's listeners will find a peer at their index. *)
Definition socket_ok (h : Heap) (sk : Socket) : Prop :=
  is_Some (heap_read h (sk_peers sk) !! sk_pidx sk).

Definition no_uncaught (l : list Effect) : Prop := UncaughtTypeError ∉ l.

Definition world_ok (w : World) : Prop :=
  Forall (socket_ok (heap w)) (sockets w) ∧ no_uncaught (log w).

Definition is_dispatch_call (a : Action) : bool :=
  match a with CallSendTransaction _ _ => true | _ => false end.

(** The number of [sendTransaction] calls among the actions. *)
Definition dispatch_calls (acts : list Action) : nat :=
  length (filter (λ a, is_dispatch_call a = true) acts).

(** The world after every attempt of an undisturbed dispatch failed. *)
Definition exhausted (w : World) (em : EventEmitter) (ps : list Peer) : World :=
  {| chain := chain w; heap := heap w; sockets := sockets w;
     log := log w ++ failed_attempts ps ++ [EmitError em (none_responding (length ps))] |}.

(** A [Member.js] whose store fails on the first read and works from
    then on; the environment counts the reads. *)
Definition flaky_store : MemberModule :=
  {| Env := nat;
     Member_restoreState :=
       λ _ _ env, match env with
                  | 0 => (Rejected "EIO", 1)
                  | S _ => (Fulfilled (), S env)
                  end;
     Member_isEnrolled := λ _ _, false;
     Member_register := λ _ _ _ env, (Returns (Some (Fulfilled ())), env);
     Member_enroll := λ _ _ _ env, (Returns (Some (Fulfilled ())), env);
     Member_registerAndEnroll := λ _ _ _ env, (Returns (Some (Fulfilled ())), env) |}.


(** The state of a configured chain on which nothing was called yet. *)
Definition fresh_state (M : MemberModule) (env : @Env M) : @State M :=
  @mkState M configured_chain env 0 [].

(** Two dispatches on three peers whose events interleave. *)
Definition two_dispatches : list Action :=
  [ CallSendTransaction "tx1" 1; CallSendTransaction "tx2" 2;
    OnSocket 0 ev_error; OnSocket 0 ev_error; OnSocket 0 ev_timeout;
    OnSocket 0 ev_connect; OnSocket 0 ev_connect ].

(** Calls on a chain: lookups, a change of the store, an enrollment. *)
Definition some_calls : list Op :=
  [ OpGetMember "alice"; OpSet (SetTCertBatchSize 10); OpEnroll "bob" "secret";
    OpSet (SetKeyValueStore js_null); OpGetUser "carol";
    OpRegisterAndEnroll alice_request ].

(** * Properties of the dispatch *)

Section Dispatch.
Implicit Types (w : World) (ps qs : list Peer) (evs : list SocketEvent).

Lemma run_app acts1 acts2 w : run (acts1 ++ acts2) w = run acts2 (run acts1 w).
Proof. revert w. induction acts1 as [|a acts1 IH]; intros w; simpl; [done|]. apply IH. Qed.

Lemma on_socket_app n evs1 evs2 :
  on_socket n (evs1 ++ evs2) = on_socket n evs1 ++ on_socket n evs2.
Proof. unfold on_socket. apply map_app. Qed.

Lemma failed_attempts_snoc qs p :
  failed_attempts (qs ++ [p])
  = failed_attempts qs ++ [SocketConnect (getUrl p); SocketDestroy (getUrl p)].
Proof. unfold failed_attempts. by rewrite flat_map_app. Qed.

Lemma terminal_count_app l1 l2 :
  terminal_count (l1 ++ l2) = terminal_count l1 + terminal_count l2.
Proof. unfold terminal_count. by rewrite filter_app, length_app. Qed.







(** Inside the array, [trySendTransaction] opens one socket. *)
Lemma trySendTransaction_in_range w l tx em k p :
  heap_read (heap w) l !! k = Some p →
  trySendTransaction l tx em k w
  = {| chain := chain w; heap := heap w;
       sockets := sockets w ++ [mkSocket l k tx em (getUrl p)];
       log := log w ++ [SocketConnect (getUrl p)] |}.
Proof.
  intros Hp. unfold trySendTransaction.
  pose proof (lookup_lt_Some _ _ _ Hp) as Hlt.
  destruct (decide (length (heap_read (heap w) l) ≤ k)) as [Hge|_]; [lia|].
  by rewrite Hp.
Qed.

(** Past its end, it emits the error and opens nothing. *)
Lemma trySendTransaction_exhausted w l tx em k :
  length (heap_read (heap w) l) ≤ k →
  trySendTransaction l tx em k w
  = emit_error em (none_responding (length (heap_read (heap w) l))) w.
Proof.
  intros Hge. unfold trySendTransaction.
  destruct (decide (length (heap_read (heap w) l) ≤ k)); [done|lia].
Qed.

Lemma probing_socket w l tx em qs k p :
  sockets (probing w l tx em qs k p) !! length (sockets w)
  = Some (mkSocket l k tx em (getUrl p)).
Proof. simpl. by apply list_lookup_middle. Qed.

(** A failure on an attempt that is not the last one moves the
    dispatch to the next peer. *)
Lemma deliver_failure_next w l tx em ps k p p' ev :
  is_failure ev = true →
  heap_read (heap w) l = ps →
  ps !! k = Some p → ps !! S k = Some p' →
  deliver (length (sockets w)) ev (probing w l tx em (take k ps) k p)
  = probing w l tx em (take (S k) ps) (S k) p'.
Proof.
  intros Hev Hps Hp Hp'. unfold deliver. rewrite probing_socket.
  assert (tryNext (length (sockets w)) (mkSocket l k tx em (getUrl p))
            (probing w l tx em (take k ps) k p)
          = probing w l tx em (take (S k) ps) (S k) p') as Hnext.
  { unfold tryNext. simpl sk_peers; simpl sk_tx; simpl sk_emitter; simpl sk_pidx.
    rewrite (trySendTransaction_in_range _ _ _ _ _ p').
    - unfold probing, destroy. simpl. rewrite delete_middle, app_nil_r.
      rewrite (take_S_r _ _ _ Hp), failed_attempts_snoc.
      f_equal; [by rewrite Nat.add_1_r|]. by rewrite <- !app_assoc.
    - simpl. rewrite Hps. by rewrite Nat.add_1_r. }
  destruct ev; [exact Hnext|exact Hnext|discriminate].
Qed.

(** A failure on the last attempt ends the dispatch with the error. *)
Lemma deliver_failure_last w l tx em ps k p ev :
  is_failure ev = true →
  heap_read (heap w) l = ps →
  ps !! k = Some p → S k = length ps →
  deliver (length (sockets w)) ev (probing w l tx em (take k ps) k p)
  = {| chain := chain w; heap := heap w; sockets := sockets w;
       log := log w ++ failed_attempts ps ++ [EmitError em (none_responding (length ps))] |}.
Proof.
  intros Hev Hps Hp Hlen. unfold deliver. rewrite probing_socket.
  assert (tryNext (length (sockets w)) (mkSocket l k tx em (getUrl p))
            (probing w l tx em (take k ps) k p)
          = {| chain := chain w; heap := heap w; sockets := sockets w;
               log := log w ++ failed_attempts ps
                      ++ [EmitError em (none_responding (length ps))] |}) as Hnext.
  { unfold tryNext. simpl sk_peers; simpl sk_tx; simpl sk_emitter; simpl sk_pidx.
    rewrite trySendTransaction_exhausted by (simpl; rewrite Hps; lia).
    unfold probing, destroy, emit_error. simpl.
    rewrite delete_middle, app_nil_r, Hps.
    assert (ps = take k ps ++ [p]) as Hsplit.
    { rewrite <- (take_S_r _ _ _ Hp), Hlen. by rewrite firstn_all. }
    rewrite Hsplit at 3. rewrite failed_attempts_snoc.
    f_equal. by rewrite <- !app_assoc. }
  destruct ev; [exact Hnext|exact Hnext|discriminate].
Qed.

Lemma deliver_connect w tx em ps k p :
  heap_read (heap w) (_peers (chain w)) = ps →
  ps !! k = Some p →
  deliver (length (sockets w)) ev_connect
    (probing w (_peers (chain w)) tx em (take k ps) k p)
  = connected w tx em ps k p.
Proof.
  intros Hps Hp. unfold deliver. rewrite probing_socket.
  unfold onConnect, connected. simpl sk_peers; simpl sk_tx; simpl sk_emitter;
    simpl sk_pidx; simpl sk_url.
  change (heap (probing w (_peers (chain w)) tx em (take k ps) k p)) with (heap w).
  change (chain (probing w (_peers (chain w)) tx em (take k ps) k p)) with (chain w).
  rewrite Hps, Hp, Nat.eqb_refl, andb_true_r.
  destruct k as [|k]; simpl.
  - rewrite delete_middle, app_nil_r. f_equal. by rewrite <- !app_assoc.
  - rewrite delete_middle, app_nil_r. f_equal. by rewrite <- !app_assoc.
Qed.

(** Events on a position without a socket run no listener. *)
Lemma run_closed n evs w :
  sockets w !! n = None → run (on_socket n evs) w = w.
Proof.
  intros Hn. induction evs as [|ev evs IH]; [done|].
  simpl. unfold deliver. by rewrite Hn.
Qed.

Lemma lookup_own_length {A} (l : list A) : l !! length l = None.
Proof. by apply lookup_ge_None. Qed.

(** Failures that leave a peer to try move the dispatch forward by as
    many attempts. *)
Lemma run_failures w l tx em ps evs : ∀ k p,
  Forall (λ ev, is_failure ev = true) evs →
  heap_read (heap w) l = ps →
  ps !! k = Some p →
  k + length evs < length ps →
  ∃ p', ps !! (k + length evs) = Some p' ∧
    run (on_socket (length (sockets w)) evs) (probing w l tx em (take k ps) k p)
    = probing w l tx em (take (k + length evs) ps) (k + length evs) p'.
Proof.
  induction evs as [|ev evs IH]; intros k p Hall Hps Hp Hlt.
  - exists p. rewrite Nat.add_0_r. by split.
  - apply Forall_cons in Hall as [Hev Hall]. simpl in Hlt.
    destruct (lookup_lt_is_Some_2 ps (S k)) as [p1 Hp1]; [lia|].
    simpl run. rewrite (deliver_failure_next _ _ _ _ ps k p p1) by done.
    destruct (IH (S k) p1) as [p' [Hp' Hrun]]; [done..|lia|].
    exists p'. simpl length. replace (k + S (length evs)) with (S k + length evs) by lia.
    by split.
Qed.

Lemma sendTransaction_begins w tx em p :
  peer_list (chain w) (heap w) !! 0 = Some p →
  sendTransaction tx em w
  = probing w (_peers (chain w)) tx em (take 0 (peer_list (chain w) (heap w))) 0 p.
Proof.
  intros Hp. unfold sendTransaction, peer_list, getPeers in *.
  pose proof (lookup_lt_Some _ _ _ Hp) as Hlt.
  destruct (decide (length (heap_read (heap w) (_peers (chain w))) = 0)); [lia|].
  rewrite (trySendTransaction_in_range _ _ _ _ _ p) by done.
  reflexivity.
Qed.

Lemma sendTransaction_no_peers w tx em :
  peer_list (chain w) (heap w) = [] →
  sendTransaction tx em w = emit_error em (has_no_peers (getName (chain w))) w.
Proof.
  intros Hnil. unfold sendTransaction, peer_list, getPeers in *.
  rewrite Hnil. reflexivity.
Qed.

(** The listener of a connection, in any world: when the chain still
    refers to the array that the dispatch captured, the chain's list
    becomes the rotation of that array and the peer at [pidx] is
    called; for [pidx = 0] nothing is assigned. *)
Lemma onConnect_rotates w k sk ps p :
  sockets w !! k = Some sk →
  heap_read (heap w) (sk_peers sk) = ps →
  ps !! sk_pidx sk = Some p →
  _peers (chain w) = sk_peers sk →
  let w' := deliver k ev_connect w in
  peer_list (chain w') (heap w') = drop (sk_pidx sk) ps ++ take (sk_pidx sk) ps
  ∧ log w' = log w ++ [SocketDestroy (sk_url sk);
                       PeerSendTransaction p (sk_tx sk) (sk_emitter sk)]
  ∧ (sk_pidx sk = 0 → chain w' = chain w ∧ heap w' = heap w).
Proof.
  intros Hsk Hps Hp Hsame. unfold deliver. rewrite Hsk.
  unfold onConnect. rewrite Hps, Hp, Hsame, Nat.eqb_refl, andb_true_r.
  destruct (sk_pidx sk) as [|i]; simpl.
  - unfold peer_list, getPeers. rewrite Hsame, Hps, app_nil_r.
    repeat split; by rewrite <- ?app_assoc.
  - unfold peer_list, getPeers, heap_read. simpl.
    rewrite list_lookup_middle by done.
    repeat split; [by rewrite <- app_assoc|discriminate|discriminate].
Qed.

(** When the chain's list was replaced while the dispatch was under
    way, the listener leaves the newer list alone. *)
Lemma onConnect_stale w k sk :
  sockets w !! k = Some sk →
  _peers (chain w) ≠ sk_peers sk →
  let w' := deliver k ev_connect w in
  chain w' = chain w ∧ heap w' = heap w.
Proof.
  intros Hsk Hne. unfold deliver. rewrite Hsk. unfold onConnect.
  assert ((sk_peers sk =? _peers (chain w)) = false) as ->.
  { apply Nat.eqb_neq. congruence. }
  rewrite andb_false_r.
  destruct (heap_read (heap w) (sk_peers sk) !! sk_pidx sk); by simpl.
Qed.

(** After [length evs] failed attempts, with peers left to try, a
    dispatch that nothing else interleaves with waits on the next peer;
    chain and heap are as they were. *)
Lemma sendTransaction_waits w tx em evs :
  Forall (λ ev, is_failure ev = true) evs →
  length evs < length (peer_list (chain w) (heap w)) →
  let ps := peer_list (chain w) (heap w) in
  ∃ p, ps !! length evs = Some p
       ∧ run (on_socket (length (sockets w)) evs) (sendTransaction tx em w)
         = probing w (_peers (chain w)) tx em (take (length evs) ps) (length evs) p.
Proof.
  intros Hall Hlt ps. fold ps in Hlt.
  destruct (lookup_lt_is_Some_2 ps 0) as [p0 Hp0]; [lia|].
  destruct (run_failures w (_peers (chain w)) tx em ps evs 0 p0)
    as [p [Hp Hrun]]; [done|done|done|simpl; lia|].
  simpl in Hp, Hrun. exists p. split; [done|].
  by rewrite (sendTransaction_begins _ _ _ p0).
Qed.

(** The failover order of one whole call: the probes before [i] fail,
    the probe at [i] connects, nothing else runs in between. *)
Corollary sendTransaction_failover_order w tx em evs :
  Forall (λ ev, is_failure ev = true) evs →
  length evs < length (peer_list (chain w) (heap w)) →
  let ps := peer_list (chain w) (heap w) in
  let i := length evs in
  let w' := run (on_socket (length (sockets w)) (evs ++ [ev_connect]))
                (sendTransaction tx em w) in
  peer_list (chain w') (heap w') = drop i ps ++ take i ps
  ∧ (∃ p, ps !! i = Some p
        ∧ log w' = log w ++ failed_attempts (take i ps)
                   ++ [SocketConnect (getUrl p); SocketDestroy (getUrl p);
                       PeerSendTransaction p tx em])
  ∧ sockets w' = sockets w
  ∧ (i = 0 → chain w' = chain w ∧ heap w' = heap w).
Proof.
  intros Hall Hlt ps i w'.
  destruct (sendTransaction_waits w tx em evs Hall Hlt) as [p [Hp Hrun]].
  fold ps i in Hp, Hrun.
  assert (w' = connected w tx em ps i p) as ->.
  { unfold w'. rewrite on_socket_app, run_app, Hrun. simpl. by apply deliver_connect. }
  unfold connected, peer_list, getPeers. split; [|split; [|split]].
  - destruct i as [|i']; simpl.
    + by rewrite app_nil_r.
    + unfold heap_read. by rewrite list_lookup_middle.
  - by exists p.
  - done.
  - by intros ->.
Qed.

(** C1. Let the probes of the peers before index [i] fail.  The
    dispatch then waits on the socket of attempt [i], which holds the
    array that the chain referred to when the dispatch began.  When
    that socket connects, in this world or in any world [w2] that other
    calls and events have led to, and the chain's list has not been
    replaced since (the chain still refers to that array), the chain's
    list becomes [peers[i:]] followed by [peers[0:i]] and the peer at
    [i] is called with the transaction; for [i = 0] the chain and the
    heap, so the order, are left as they are. *)
Theorem sendTransaction_rotates_to_live_peer w tx em evs :
  Forall (λ ev, is_failure ev = true) evs →
  length evs < length (peer_list (chain w) (heap w)) →
  let ps := peer_list (chain w) (heap w) in
  let i := length evs in
  let w1 := run (on_socket (length (sockets w)) evs) (sendTransaction tx em w) in
  ∃ p, ps !! i = Some p ∧
    let sk := mkSocket (_peers (chain w)) i tx em (getUrl p) in
    sockets w1 !! length (sockets w) = Some sk
    ∧ chain w1 = chain w ∧ heap w1 = heap w
    ∧ ∀ w2 k,
        sockets w2 !! k = Some sk →
        heap_read (heap w2) (_peers (chain w)) = ps →
        _peers (chain w2) = _peers (chain w) →
        let w' := deliver k ev_connect w2 in
        peer_list (chain w') (heap w') = drop i ps ++ take i ps
        ∧ log w' = log w2 ++ [SocketDestroy (getUrl p); PeerSendTransaction p tx em]
        ∧ sockets w' = delete k (sockets w2)
        ∧ (i = 0 → chain w' = chain w2 ∧ heap w' = heap w2).
Proof.
  intros Hall Hlt ps i w1.
  destruct (sendTransaction_waits w tx em evs Hall Hlt) as [p [Hp Hrun]].
  fold ps i in Hp, Hrun. exists p. split; [done|]. intros sk.
  unfold w1. rewrite Hrun. split; [apply probing_socket|].
  split; [done|]. split; [done|].
  intros w2 k Hsk Hps Hsame.
  destruct (onConnect_rotates w2 k sk ps p Hsk Hps Hp Hsame) as (Hlist & Hlog & Hzero).
  split; [exact Hlist|]. split; [exact Hlog|]. split; [|exact Hzero].
  unfold deliver. rewrite Hsk. unfold onConnect.
  simpl sk_peers; simpl sk_pidx. rewrite Hps, Hp.
  by destruct ((0 <? i) && (_peers (chain w) =? _peers (chain w2))).
Qed.





End Dispatch.

(** ** The dispatch with the exception of [client.connect] *)

Section CheckedDispatch.
Variable connect_throws : string → option Error.
Implicit Types (w : World) (ps : list Peer) (evs : list SocketEvent).






End CheckedDispatch.

(** * Properties of the chain object *)

Lemma isSecurityEnabled_iff (this : Chain) :
  isSecurityEnabled this = true ↔ _memberServices this ≠ js_undefined.
Proof. unfold isSecurityEnabled. destruct (_memberServices this); simpl; split; congruence. Qed.

(** C3, the code at a fresh chain: no member services have been set (the
    field is the [null] of the class body), and [isSecurityEnabled()]
    answers [true], because [null !== undefined]. *)
Theorem isSecurityEnabled_fresh_chain (name : string) :
  getMemberServices (constructor name) = js_null
  ∧ isSecurityEnabled (constructor name) = true.
Proof. split; reflexivity. Qed.

(** C5, the code on two chains.  [A.addPeer(url)] throws the
    [ReferenceError] of [new Peer] and appends nothing, so the list of
    [A] stays empty.  The two chains do not have lists of their own
    either: [getPeers] gives the one array of the class body for both,
    and a peer pushed onto the array that [A.getPeers()] returns is in
    the list of [B]. *)
Theorem addPeer_throws_and_chains_share_peers :
  let A := constructor "A" in
  let B := constructor "B" in
  addPeer "grpc://localhost:7051" js_undefined A module_heap
    = (inl reference_error_Peer, module_heap)
  ∧ peer_list A (snd (addPeer "grpc://localhost:7051" js_undefined A module_heap)) = []
  ∧ getPeers A = getPeers B
  ∧ ∀ peer, peer_list B (array_push (getPeers A) peer module_heap) = [peer].
Proof. repeat split. Qed.

(** * Properties of the identities *)

Section IdentityProperties.
Context `{MemberModule}.
Implicit Types (s : State) (name : string) (v : CacheValue).

Lemma settle_settled {A} (o : Settled A) (p : PromiseState A) :
  is_Some p → settle o p = p.
Proof. by intros [x ->]. Qed.

(** [_getMemberHelper] settles its promise; a fulfilled one carries the
    value that the cache then gives for the name. *)
Lemma _getMemberHelper_fulfilled name s v s1 :
  _getMemberHelper name s = (Some (Fulfilled v), s1) →
  members_get name (st_chain s1) = Some v.
Proof.
  unfold _getMemberHelper. destruct (members_get name (st_chain s)) as [v0|] eqn:Hget.
  - simpl. intros [= <- <-]. done.
  - simpl. destruct (Member_restoreState _ _ _) as [[[]|err] env]; simpl; [|discriminate].
    intros [= <- <-]. unfold members_get, cache_member. simpl.
    by rewrite lookup_insert_eq.
Qed.

Lemma _getMemberHelper_hit name s v :
  members_get name (st_chain s) = Some v →
  _getMemberHelper name s = (Some (Fulfilled v), s).
Proof. intros Hget. unfold _getMemberHelper. by rewrite Hget. Qed.

Lemma getMember_fulfilled name s v s1 :
  getMember name s = (Some (Fulfilled v), s1) →
  truthy (_keyValStore (st_chain s)) = true
  ∧ truthy (_memberServices (st_chain s)) = true
  ∧ _getMemberHelper name s = (Some (Fulfilled v), s1).
Proof.
  unfold getMember.
  destruct (truthy (_keyValStore (st_chain s)));
    destruct (truthy (_memberServices (st_chain s)));
    destruct (_getMemberHelper name s) as [[[v0|err]|] s0]; simpl;
    intros [= <- <-] || discriminate; done.
Qed.

Lemma getMember_hit name s v :
  truthy (_keyValStore (st_chain s)) = true →
  truthy (_memberServices (st_chain s)) = true →
  members_get name (st_chain s) = Some v →
  getMember name s = (Some (Fulfilled v), s).
Proof.
  intros Hkv Hms Hget. unfold getMember.
  rewrite Hkv, Hms, (_getMemberHelper_hit _ _ _ Hget). done.
Qed.

(** [_getMemberHelper] assigns to the cache only and only under the
    name it was called with. *)
Lemma _getMemberHelper_chain name s :
  let s1 := snd (_getMemberHelper name s) in
  _keyValStore (st_chain s1) = _keyValStore (st_chain s)
  ∧ _memberServices (st_chain s1) = _memberServices (st_chain s)
  ∧ ∀ other, other ≠ name →
      _members (st_chain s1) !! other = _members (st_chain s) !! other.
Proof.
  unfold _getMemberHelper. destruct (members_get name (st_chain s)); simpl; [done|].
  destruct (Member_restoreState _ _ _) as [[[]|err] env]; simpl; [|done].
  repeat split. intros other Hne. by rewrite lookup_insert_ne.
Qed.

Lemma getMember_snd name s : snd (getMember name s) = snd (_getMemberHelper name s).
Proof.
  unfold getMember.
  by destruct (_getMemberHelper name s) as [[[v0|err]|] s0].
Qed.

(** What the cache gives for a name, once it gives something, is not
    changed by a [getMember] for any name; neither is the
    configuration. *)
Lemma getMember_preserves name v other s :
  members_get name (st_chain s) = Some v →
  let s1 := snd (getMember other s) in
  members_get name (st_chain s1) = Some v
  ∧ _keyValStore (st_chain s1) = _keyValStore (st_chain s)
  ∧ _memberServices (st_chain s1) = _memberServices (st_chain s).
Proof.
  intros Hget s1. unfold s1. rewrite getMember_snd.
  destruct (_getMemberHelper_chain other s) as (Hkv & Hms & Hothers).
  split; [|done].
  destruct (decide (other = name)) as [->|Hne].
  - by rewrite (_getMemberHelper_hit _ _ _ Hget).
  - unfold members_get in *. by rewrite Hothers.
Qed.

Lemma getMembers_preserves name v names : ∀ s,
  members_get name (st_chain s) = Some v →
  truthy (_keyValStore (st_chain s)) = true →
  truthy (_memberServices (st_chain s)) = true →
  let s2 := getMembers names s in
  members_get name (st_chain s2) = Some v
  ∧ truthy (_keyValStore (st_chain s2)) = true
  ∧ truthy (_memberServices (st_chain s2)) = true.
Proof.
  induction names as [|other names IH]; intros s Hget Hkv Hms; [done|].
  simpl. destruct (getMember_preserves name v other s Hget) as (Hget1 & Hkv1 & Hms1).
  apply IH; [done|by rewrite Hkv1|by rewrite Hms1].
Qed.

(** While the cache answers for [name], a [getMember] for any name
    constructs no member for [name]. *)
Lemma getMember_constructs name v other s :
  members_get name (st_chain s) = Some v →
  ∃ new, st_calls (snd (getMember other s)) = st_calls s ++ new
         ∧ Forall (λ c, constructs name c = false) new.
Proof.
  intros Hget. rewrite getMember_snd. unfold _getMemberHelper.
  destruct (members_get other (st_chain s)) eqn:Hother; simpl.
  - exists []. by rewrite app_nil_r.
  - assert (other ≠ name) as Hne by (intros ->; congruence).
    apply String.eqb_neq in Hne.
    destruct (Member_restoreState _ _ _) as [[[]|err] env]; simpl;
      eexists [_; _]; rewrite <- app_assoc; (split; [done|]);
      by repeat constructor.
Qed.

Lemma getMembers_constructs name v names : ∀ s,
  members_get name (st_chain s) = Some v →
  ∃ new, st_calls (getMembers names s) = st_calls s ++ new
         ∧ Forall (λ c, constructs name c = false) new.
Proof.
  induction names as [|other names IH]; intros s Hget.
  - exists []. by rewrite app_nil_r.
  - simpl. destruct (getMember_preserves name v other s Hget) as (Hget1 & _).
    destruct (getMember_constructs name v other s Hget) as (new1 & Hnew1 & Hall1).
    destruct (IH _ Hget1) as (new2 & Hnew2 & Hall2).
    exists (new1 ++ new2). rewrite Hnew2, Hnew1, <- app_assoc. split; [done|].
    by apply Forall_app.
Qed.

(** C8. Once [getMember(name)] has resolved to a value, every later
    [getMember(name)] on the chain, whatever [getMember] calls for
    this or other names came in between, resolves to the same value
    and leaves the state as it found it: it constructs no member and
    assigns nothing to the cache, which keeps the one entry it has
    under the name; no second member for the name is constructed by
    the calls in between either. *)
Theorem getMember_same_instance name s v s1 names :
  getMember name s = (Some (Fulfilled v), s1) →
  let s2 := getMembers names s1 in
  getMember name s2 = (Some (Fulfilled v), s2)
  ∧ members_get name (st_chain s2) = Some v
  ∧ ∃ new, st_calls s2 = st_calls s1 ++ new
           ∧ Forall (λ c, constructs name c = false) new.
Proof.
  intros Hfirst s2.
  destruct (getMember_fulfilled _ _ _ _ Hfirst) as (Hkv & Hms & Hhelper).
  pose proof (_getMemberHelper_fulfilled _ _ _ _ Hhelper) as Hget.
  destruct (_getMemberHelper_chain name s) as (Hkv1 & Hms1 & _).
  rewrite Hhelper in Hkv1, Hms1. simpl in Hkv1, Hms1.
  destruct (getMembers_preserves name v names s1 Hget) as (Hget2 & Hkv2 & Hms2);
    [by rewrite Hkv1|by rewrite Hms1|].
  split; [by apply getMember_hit|]. split; [done|].
  by apply (getMembers_constructs name v).
Qed.

(** The calls that [getMember] makes are the construction of a member
    and its [restoreState], or none. *)
Lemma getMember_calls name s :
  let s1 := snd (getMember name s) in
  ∃ new, st_calls s1 = st_calls s ++ new
         ∧ Forall (λ c, is_authority_call c = false) new.
Proof.
  intros s1. unfold s1. rewrite getMember_snd. unfold _getMemberHelper.
  destruct (members_get name (st_chain s)); simpl.
  - exists []. by rewrite app_nil_r.
  - destruct (Member_restoreState _ _ _) as [[[]|err] env]; simpl;
      eexists [_; _]; rewrite <- app_assoc; split; try done;
      by repeat constructor.
Qed.

(** C7. When the identity that [registerAndEnroll] looks up is enrolled
    already, the promise is fulfilled with that identity; after
    [getMember] the only call on the member is [isEnrolled], so no
    [register], [enroll] or [registerAndEnroll] of the member, and
    through them of the authority, is made, and the environment is
    left as [getMember] left it. *)
Theorem registerAndEnroll_enrolled_short_circuit req s m s1 :
  getMember (enrollmentID req) s = (Some (Fulfilled (cv_member m)), s1) →
  Member_isEnrolled m (st_env s1) = true →
  let '(p, s2) := registerAndEnroll req s in
  p = Some (Fulfilled (Some (cv_member m)))
  ∧ st_calls s2 = st_calls s1 ++ [CallIsEnrolled m]
  ∧ st_env s2 = st_env s1
  ∧ st_chain s2 = st_chain s1
  ∧ ∃ new, st_calls s2 = st_calls s ++ new
           ∧ Forall (λ c, is_authority_call c = false) new.
Proof.
  intros Hget Henrolled. unfold registerAndEnroll. rewrite Hget, Henrolled.
  simpl. repeat split.
  destruct (getMember_calls (enrollmentID req) s) as (new & Hnew & Hall).
  rewrite Hget in Hnew. simpl in Hnew.
  exists (new ++ [CallIsEnrolled m]). rewrite Hnew, <- app_assoc. split; [done|].
  apply Forall_app. split; [done|]. by repeat constructor.
Qed.

(** Without a store or without member services the promise of
    [getMember] is rejected with the error of the first missing one. *)
Lemma getMember_unconfigured_rejects name s :
  truthy (_keyValStore (st_chain s)) = false
  ∨ truthy (_memberServices (st_chain s)) = false →
  ∃ err, fst (getMember name s) = Some (Rejected err)
         ∧ (err = no_key_value_store ∨ err = no_member_services).
Proof.
  unfold getMember. intros [Hkv|Hms].
  - rewrite Hkv. exists no_key_value_store. split; [|by left].
    destruct (truthy (_memberServices (st_chain s)));
      by destruct (_getMemberHelper name s) as [[[v0|err]|] s0].
  - rewrite Hms. destruct (truthy (_keyValStore (st_chain s))).
    + exists no_member_services. split; [|by right].
      by destruct (_getMemberHelper name s) as [[[v0|err]|] s0].
    + exists no_key_value_store. split; [|by left].
      by destruct (_getMemberHelper name s) as [[[v0|err]|] s0].
Qed.

(** The promise of [register] is fulfilled with [true] as soon as the
    call of [member.register] has returned, whatever becomes of the
    promise that the call returned. *)
Lemma register_ignores_member_promise req s m s1 p env :
  getMember (enrollmentID req) s = (Some (Fulfilled (cv_member m)), s1) →
  Member_register req m (st_chain s1) (st_env s1) = (Returns p, env) →
  fst (register req s) = Some (Fulfilled true).
Proof. intros Hget Hreg. unfold register. by rewrite Hget, Hreg. Qed.

End IdentityProperties.

(** C6, the code on a chain without member services: the promise of
    [getMember("alice")] is rejected with the configuration error, and
    the call has constructed a member, had it restore its state from
    the store, and put it into the cache. *)
Theorem getMember_unconfigured_still_caches :
  let s := @mkState refusing_authority chain_without_services () 0 [] in
  let '(p, s1) := @getMember refusing_authority "alice" s in
  _memberServices (st_chain s) = js_null
  ∧ p = Some (Rejected no_member_services)
  ∧ st_calls s1 = [NewMember alice; CallRestoreState alice]
  ∧ _members (st_chain s) !! "alice" = None
  ∧ _members (st_chain s1) !! "alice" = Some alice.
Proof. vm_compute. repeat split. Qed.

(** C4, the code with an authority that refuses the registration: the
    promise that [member.register] returns is rejected, and the promise
    of the chain's [register] is fulfilled with [true]. *)
Theorem register_resolves_true_on_refusal :
  let s := @mkState refusing_authority configured_chain () 0 [] in
  let '(p, s1) := @register refusing_authority alice_request s in
  @Member_register refusing_authority alice_request alice (st_chain s1) (st_env s1)
    = (Returns (Some (Rejected "registration refused")), ())
  ∧ st_calls s1 = [NewMember alice; CallRestoreState alice;
                   CallRegister alice alice_request]
  ∧ p = Some (Fulfilled true).
Proof. vm_compute. repeat split. Qed.

(** * Properties of the file store *)

Section StoreContract.
Import FileKeyValueStore.
Variable path_join : string → string → string.
Implicit Types (this : KeyValueStore) (fs : gmap string fs_node).

Lemma node_at_insert_ne p q x fs :
  p ≠ q → node_at q (<[p := x]> fs) = node_at q fs.
Proof. intros Hne. unfold node_at. by rewrite lookup_insert_ne. Qed.

Lemma node_at_insert_eq p x fs :
  node_at p fs ≠ Some fs_dir → node_at p (<[p := x]> fs) = Some x.
Proof.
  unfold node_at. destruct (always_there p); [done|].
  intros _. by rewrite lookup_insert_eq.
Qed.

(** The way down depends on the directories above the path only. *)
Lemma walk_ext dirs fs fs' :
  Forall (λ d, node_at d fs' = node_at d fs) dirs → walk dirs fs' = walk dirs fs.
Proof.
  induction 1 as [|d dirs Hd _ IH]; [done|].
  simpl. by rewrite Hd, IH.
Qed.

Lemma walk_None dirs fs :
  walk dirs fs = None → Forall (λ d, node_at d fs = Some fs_dir) dirs.
Proof.
  induction dirs as [|d dirs IH]; [done|]. simpl.
  destruct (node_at d fs) as [[data|]|] eqn:Hd; try discriminate.
  intros Hw. by constructor; [|apply IH].
Qed.

(** A write that succeeds puts a file at the path, below directories
    that were there. *)
Lemma writeFile_ok p value fs fs' :
  writeFile p value fs = (None, fs') →
  walk (ancestors p) fs = None ∧ node_at p fs ≠ Some fs_dir
  ∧ fs' = <[p := fs_file value]> fs.
Proof.
  unfold writeFile. destruct (walk (ancestors p) fs); [discriminate|].
  by destruct (node_at p fs) as [[data|]|]; intros [= <-] || discriminate.
Qed.


(** A file that was written is seen by the walks that saw its
    directories. *)
Lemma walk_insert_file p value dirs fs :
  node_at p fs ≠ Some fs_dir → walk dirs fs = None →
  walk dirs (<[p := fs_file value]> fs) = None.
Proof.
  intros Hnd Hw. rewrite <- Hw. apply walk_ext.
  apply walk_None in Hw. eapply Forall_impl; [exact Hw|].
  intros d Hd. simpl in Hd. apply node_at_insert_ne. intros ->. by rewrite Hd in Hnd.
Qed.








End StoreContract.

(** * The properties at work on concrete chains *)

(** The test of the failover order: of [P0; P1; P2] only [P1] accepts
    the connection; it receives the transaction and the order becomes
    [P1; P2; P0]. *)
Lemma sendTransaction_rotates_to_live_peer_witness :
  Forall (λ ev, is_failure ev = true) [ev_error]
  ∧ length [ev_error] < length (peer_list (chain three_peers) (heap three_peers))
  ∧ let w' := run (on_socket 0 [ev_error; ev_connect])
                  (sendTransaction "tx" 7 three_peers) in
    peer_list (chain w') (heap w') = [P1; P2; P0]
    ∧ log w' = [SocketConnect (getUrl P0); SocketDestroy (getUrl P0);
                SocketConnect (getUrl P1); SocketDestroy (getUrl P1);
                PeerSendTransaction P1 "tx" 7].
Proof.
  assert (Forall (λ ev, is_failure ev = true) [ev_error]) as H1
    by (repeat constructor).
  assert (length [ev_error] < length (peer_list (chain three_peers) (heap three_peers)))
    as H2 by (vm_compute; lia).
  split; [exact H1|]. split; [exact H2|].
  destruct (sendTransaction_rotates_to_live_peer three_peers "tx" 7 [ev_error] H1 H2)
    as (p & Hp & Hsk & _ & _ & Hconnect).
  vm_compute in Hp. injection Hp as <-.
  destruct (Hconnect (run (on_socket 0 [ev_error]) (sendTransaction "tx" 7 three_peers))
              0 Hsk eq_refl eq_refl) as (Hlist & Hlog & _).
  split; [exact Hlist|exact Hlog].
Defined.


(** With every member enrolled, [registerAndEnroll] for alice is
    fulfilled with her member and the authority's counter stays at 0. *)
Lemma registerAndEnroll_enrolled_short_circuit_witness :
  let s := @mkState all_enrolled configured_chain 0 0 [] in
  let s1 := snd (@getMember all_enrolled "alice" s) in
  @getMember all_enrolled (enrollmentID alice_request) s
    = (Some (Fulfilled (cv_member alice)), s1)
  ∧ @Member_isEnrolled all_enrolled alice (st_env s1) = true
  ∧ fst (@registerAndEnroll all_enrolled alice_request s)
    = Some (Fulfilled (Some (cv_member alice)))
  ∧ st_env (snd (@registerAndEnroll all_enrolled alice_request s)) = 0.
Proof.
  intros s s1.
  assert (@getMember all_enrolled (enrollmentID alice_request) s
          = (Some (Fulfilled (cv_member alice)), s1)) as H1 by (vm_compute; reflexivity).
  assert (@Member_isEnrolled all_enrolled alice (st_env s1) = true) as H2 by reflexivity.
  split; [exact H1|]. split; [exact H2|].
  pose proof (@registerAndEnroll_enrolled_short_circuit all_enrolled
                alice_request s alice s1 H1 H2) as H3.
  destruct (@registerAndEnroll all_enrolled alice_request s) as [p s2].
  destruct H3 as (Hp & _ & Henv & _). split; [exact Hp|exact Henv].
Defined.

(** After alice's member has been handed out once, a lookup of bob and
    further lookups of alice still give the same member. *)
Lemma getMember_same_instance_witness :
  let s := @mkState all_enrolled configured_chain 0 0 [] in
  let s1 := snd (@getMember all_enrolled "alice" s) in
  let s2 := @getMembers all_enrolled ["bob"; "alice"] s1 in
  @getMember all_enrolled "alice" s = (Some (Fulfilled (cv_member alice)), s1)
  ∧ @getMember all_enrolled "alice" s2 = (Some (Fulfilled (cv_member alice)), s2).
Proof.
  intros s s1 s2.
  assert (@getMember all_enrolled "alice" s
          = (Some (Fulfilled (cv_member alice)), s1)) as H1 by (vm_compute; reflexivity).
  split; [exact H1|].
  exact (proj1 (@getMember_same_instance all_enrolled "alice" s (cv_member alice) s1
                  ["bob"; "alice"] H1)).
Defined.



(** Two dispatches on the same chain, interleaved: the second one finds
    [P1] alive and rotates the list; the first one then finds [P2]
    alive, sees that the chain no longer refers to the array it started
    from, calls [P2] and leaves the newer order [P1; P2; P0] alone. *)
Example stale_dispatch_keeps_newer_list :
  let w' := run [ CallSendTransaction "tx1" 1; CallSendTransaction "tx2" 2;
                  OnSocket 0 ev_error; OnSocket 0 ev_error; OnSocket 0 ev_timeout;
                  OnSocket 0 ev_connect; OnSocket 0 ev_connect ] three_peers in
  peer_list (chain w') (heap w') = [P1; P2; P0]
  ∧ filter (λ e, is_terminal e = true) (log w')
    = [PeerSendTransaction P1 "tx2" 2; PeerSendTransaction P2 "tx1" 1]
  ∧ sockets w' = [].
Proof. vm_compute. repeat split. Qed.

(** A name that [Object.prototype] defines is found by the lookup in the
    cache object although no member was ever cached under it. *)
Example members_get_inherited :
  members_get "toString" configured_chain = Some (cv_inherited "toString")
  ∧ members_get "alice" configured_chain = None.
Proof. vm_compute. repeat split. Qed.

(** * Further properties of the dispatch: any interleaving *)

Section Interleaving.
Implicit Types (w : World) (h : Heap) (acts : list Action).

Lemma heap_extends_refl h : heap_extends h h.
Proof. intros l. exists []. by rewrite app_nil_r. Qed.

Lemma heap_read_dangling h l : length h ≤ l → heap_read h l = [].
Proof. intros Hge. unfold heap_read. by rewrite lookup_ge_None_2. Qed.

Lemma heap_read_alloc h a l : l < length h → heap_read (h ++ [a]) l = heap_read h l.
Proof. intros Hlt. unfold heap_read. by rewrite lookup_app_l. Qed.

Lemma heap_read_alloc_new h a : heap_read (h ++ [a]) (length h) = a.
Proof. unfold heap_read. by rewrite list_lookup_middle. Qed.

Lemma heap_extends_alloc h a : heap_extends h (h ++ [a]).
Proof.
  intros l. destruct (decide (l < length h)) as [Hlt|Hge].
  - exists []. by rewrite heap_read_alloc, app_nil_r.
  - rewrite (heap_read_dangling h l) by lia. by eexists.
Qed.

Lemma heap_extends_addPeer url pem c h : heap_extends h (snd (addPeer url pem c h)).
Proof. apply heap_extends_refl. Qed.

Lemma socket_ok_extends h h' sk :
  heap_extends h h' → socket_ok h sk → socket_ok h' sk.
Proof.
  intros Hext [p Hp]. destruct (Hext (sk_peers sk)) as [extra Hextra].
  exists p. unfold socket_ok. rewrite Hextra. by apply lookup_app_l_Some.
Qed.

Lemma no_uncaught_snoc l e :
  no_uncaught l → e ≠ UncaughtTypeError → no_uncaught (l ++ [e]).
Proof.
  unfold no_uncaught. intros Hl He Hin.
  apply elem_of_app in Hin as [Hin|Hin]; [done|].
  apply list_elem_of_singleton in Hin. congruence.
Qed.

Lemma trySendTransaction_ok l tx em k w :
  world_ok w → world_ok (trySendTransaction l tx em k w).
Proof.
  intros [Hsk Hlog]. unfold trySendTransaction.
  destruct (decide _) as [Hge|Hlt].
  - split; [done|]. by apply no_uncaught_snoc.
  - destruct (heap_read (heap w) l !! k) as [p|] eqn:Hp; [|done].
    split; simpl.
    + apply Forall_app. split; [done|]. apply Forall_singleton.
      unfold socket_ok. simpl. by rewrite Hp.
    + by apply no_uncaught_snoc.
Qed.

Lemma destroy_ok k sk w : world_ok w → world_ok (destroy k sk w).
Proof.
  intros [Hsk Hlog]. split; simpl.
  - by apply Forall_delete.
  - by apply no_uncaught_snoc.
Qed.

Lemma onConnect_ok k sk w :
  sockets w !! k = Some sk → world_ok w → world_ok (onConnect k sk w).
Proof.
  intros Hk [Hsk Hlog].
  pose proof (Forall_lookup_1 _ _ _ _ Hsk Hk) as [p Hp].
  unfold onConnect. rewrite Hp.
  destruct ((0 <? sk_pidx sk) && (sk_peers sk =? _peers (chain w))); simpl.
  - split; simpl.
    + apply Forall_delete.
      eapply Forall_impl; [exact Hsk|]. intros sk'.
      apply socket_ok_extends, heap_extends_alloc.
    + apply no_uncaught_snoc; [apply no_uncaught_snoc|]; done.
  - split; simpl.
    + by apply Forall_delete.
    + apply no_uncaught_snoc; [apply no_uncaught_snoc|]; done.
Qed.

Lemma exec_ok a w : world_ok w → world_ok (exec a w).
Proof.
  intros Hok. destruct a as [tx em|url pem|k ev]; simpl.
  - unfold sendTransaction. destruct (decide _).
    + destruct Hok as [Hsk Hlog]. split; [done|]. by apply no_uncaught_snoc.
    + by apply trySendTransaction_ok.
  - destruct Hok as [Hsk Hlog]. split; [|done]. simpl.
    eapply Forall_impl; [exact Hsk|]. intros sk.
    apply (socket_ok_extends _ _ _ (heap_extends_addPeer url pem (chain w) (heap w))).
  - unfold deliver. destruct (sockets w !! k) as [sk|] eqn:Hk; [|done].
    destruct ev.
    + by apply trySendTransaction_ok, destroy_ok.
    + by apply trySendTransaction_ok, destroy_ok.
    + by apply onConnect_ok.
Qed.

(** X1. Whatever calls of [sendTransaction] and [addPeer] and whatever
    socket events follow one another, every open socket keeps a peer at
    its index in the array it captured, and the callback of a connection
    never calls [sendTransaction] on a missing element. *)
Theorem run_never_dereferences_missing_peer acts w :
  world_ok w → world_ok (run acts w).
Proof.
  revert w. induction acts as [|a acts IH]; intros w Hok; [done|].
  simpl. by apply IH, exec_ok.
Qed.

End Interleaving.

Section Accounting.
Implicit Types (w : World) (acts : list Action).

Lemma terminal_count_snoc l e :
  terminal_count (l ++ [e]) = terminal_count l + (if is_terminal e then 1 else 0).
Proof. rewrite terminal_count_app. f_equal. by destruct e. Qed.

Lemma dispatch_calls_cons a acts :
  dispatch_calls (a :: acts)
  = (if is_dispatch_call a then 1 else 0) + dispatch_calls acts.
Proof. by destruct a. Qed.

(** [trySendTransaction] gives the error or opens a socket, one of the
    two. *)
Lemma trySendTransaction_accounting l tx em k w :
  let w' := trySendTransaction l tx em k w in
  terminal_count (log w') + length (sockets w')
  = terminal_count (log w) + length (sockets w) + 1.
Proof.
  unfold trySendTransaction. destruct (decide _) as [Hge|Hlt]; simpl.
  - rewrite terminal_count_snoc. simpl. lia.
  - destruct (heap_read (heap w) l !! k) as [p|] eqn:Hp; simpl.
    + rewrite terminal_count_snoc, length_app. simpl. lia.
    + apply lookup_ge_None in Hp. lia.
Qed.

Lemma exec_accounting a w :
  world_ok w →
  terminal_count (log (exec a w)) + length (sockets (exec a w))
  = terminal_count (log w) + length (sockets w)
    + (if is_dispatch_call a then 1 else 0).
Proof.
  intros [Hsk Hlog]. destruct a as [tx em|url pem|k ev]; simpl.
  - unfold sendTransaction. destruct (decide _); simpl.
    + rewrite terminal_count_snoc. simpl. lia.
    + apply trySendTransaction_accounting.
  - lia.
  - unfold deliver. destruct (sockets w !! k) as [sk|] eqn:Hk; [|lia].
    pose proof (lookup_lt_Some _ _ _ Hk) as Hklt.
    assert (terminal_count (log (tryNext k sk w)) + length (sockets (tryNext k sk w))
            = terminal_count (log w) + length (sockets w)) as Hnext.
    { unfold tryNext.
      pose proof (trySendTransaction_accounting (sk_peers sk) (sk_tx sk)
                    (sk_emitter sk) (sk_pidx sk + 1) (destroy k sk w)) as Hacc.
      simpl in Hacc. rewrite Hacc, terminal_count_snoc, length_delete by eauto.
      simpl. lia. }
    destruct ev; [lia|lia|].
    pose proof (Forall_lookup_1 _ _ _ _ Hsk Hk) as [p Hp].
    unfold onConnect. rewrite Hp.
    destruct ((0 <? sk_pidx sk) && (sk_peers sk =? _peers (chain w))); simpl;
      rewrite !terminal_count_snoc, length_delete by eauto; simpl; lia.
Qed.

(** When nothing throws, the terminal signals given plus the dispatches
    that still wait on a socket grow by the number of [sendTransaction]
    calls made. *)
Lemma run_accounting acts w :
  world_ok w →
  terminal_count (log (run acts w)) + length (sockets (run acts w))
  = terminal_count (log w) + length (sockets w) + dispatch_calls acts.
Proof.
  revert w. induction acts as [|a acts IH]; intros w Hok.
  - simpl. unfold dispatch_calls. simpl. lia.
  - simpl run. rewrite IH by by apply exec_ok.
    rewrite exec_accounting, dispatch_calls_cons by done. lia.
Qed.

Lemma trySendTransaction_checked_cases connect_throws l tx em k w :
  trySendTransaction_checked connect_throws l tx em k w
  = Done (trySendTransaction l tx em k w)
  ∨ ∃ err, trySendTransaction_checked connect_throws l tx em k w = Thrown err w.
Proof.
  unfold trySendTransaction_checked, trySendTransaction.
  destruct (decide _); [by left|].
  destruct (heap_read (heap w) l !! k) as [p|]; [|by left].
  destruct (connect_throws (getUrl p)) as [err|]; [right; by exists err|by left].
Qed.

(** A turn of the event loop is the one of [exec], or it throws and
    leaves no signal and no socket behind. *)
Lemma exec_checked_cases connect_throws a w :
  exec_checked connect_throws a w = Done (exec a w)
  ∨ ∃ err w', exec_checked connect_throws a w = Thrown err w'
      ∧ terminal_count (log w') + length (sockets w')
        ≤ terminal_count (log w) + length (sockets w).
Proof.
  destruct a as [tx em|url pem|k ev]; simpl.
  - unfold sendTransaction_checked, sendTransaction. destruct (decide _); [by left|].
    destruct (trySendTransaction_checked_cases connect_throws (_peers (chain w)) tx em 0 w)
      as [Hd|[err Ht]]; [by left|].
    right. exists err, w. by split.
  - right. eexists _, _. split; [reflexivity|]. simpl. lia.
  - unfold deliver_checked, deliver. destruct (sockets w !! k) as [sk|] eqn:Hk; [|by left].
    assert (tryNext_checked connect_throws k sk w = Done (tryNext k sk w)
            ∨ ∃ err w', tryNext_checked connect_throws k sk w = Thrown err w'
                ∧ terminal_count (log w') + length (sockets w')
                  ≤ terminal_count (log w) + length (sockets w)) as Hnext.
    { unfold tryNext_checked, tryNext.
      destruct (trySendTransaction_checked_cases connect_throws (sk_peers sk) (sk_tx sk)
                  (sk_emitter sk) (sk_pidx sk + 1) (destroy k sk w))
        as [Hd|[err Ht]]; [by left|].
      right. exists err, (destroy k sk w). split; [done|].
      simpl. rewrite terminal_count_snoc. simpl.
      pose proof (length_delete (sockets w) k (mk_is_Some _ _ Hk)). lia. }
    destruct ev; [exact Hnext|exact Hnext|by left].
Qed.

(** X2. Over any interleaving of calls and socket events, up to the
    first call that throws if one does, the terminal signals given
    plus the dispatches that still wait on a socket grow by at most the
    number of [sendTransaction] calls made: no call is answered twice.
    When no call throws they grow by exactly that number: no call is
    dropped. *)
Theorem run_checked_one_signal_per_call connect_throws acts w :
  world_ok w →
  let o := run_checked connect_throws acts w in
  terminal_count (log (outcome_world o)) + length (sockets (outcome_world o))
  ≤ terminal_count (log w) + length (sockets w) + dispatch_calls acts
  ∧ ∀ w', o = Done w' →
      terminal_count (log w') + length (sockets w')
      = terminal_count (log w) + length (sockets w) + dispatch_calls acts.
Proof.
  revert w. induction acts as [|a acts IH]; intros w Hok.
  - simpl. unfold dispatch_calls. simpl. split; [lia|]. intros w' [= <-]. lia.
  - cbn [run_checked]. rewrite dispatch_calls_cons.
    destruct (exec_checked_cases connect_throws a w) as [->|(err & w1 & -> & Hle)].
    + destruct (IH (exec a w) (exec_ok a w Hok)) as [Hle Heq].
      pose proof (exec_accounting a w Hok) as Hstep.
      split; [simpl in Hle; lia|].
      intros w' Hw'. rewrite (Heq w' Hw'). lia.
    + simpl. split; [lia|discriminate].
Qed.

Lemma set_peers_own (c : Chain) : set_peers (_peers c) c = c.
Proof. by destruct c. Qed.

Lemma exec_frame a w :
  set_peers (_peers (chain w)) (chain (exec a w)) = chain w.
Proof.
  destruct a as [tx em|url pem|k ev]; simpl.
  - unfold sendTransaction, trySendTransaction.
    repeat (destruct (decide _) || destruct (_ !! _)); simpl; apply set_peers_own.
  - apply set_peers_own.
  - unfold deliver. destruct (sockets w !! k) as [sk|]; [|apply set_peers_own].
    destruct ev.
    + unfold tryNext, trySendTransaction.
      repeat (destruct (decide _) || destruct (_ !! _)); simpl; apply set_peers_own.
    + unfold tryNext, trySendTransaction.
      repeat (destruct (decide _) || destruct (_ !! _)); simpl; apply set_peers_own.
    + unfold onConnect.
      destruct ((0 <? sk_pidx sk) && (sk_peers sk =? _peers (chain w)));
        destruct (_ !! _); simpl; by destruct (chain w).
Qed.

Lemma run_frame acts w :
  set_peers (_peers (chain w)) (chain (run acts w)) = chain w.
Proof.
  revert w. induction acts as [|a acts IH]; intros w; [apply set_peers_own|].
  simpl. rewrite <- (exec_frame a w) at 2. rewrite <- (IH (exec a w)).
  by destruct (chain (run acts (exec a w))).
Qed.

(** X4. The dispatch assigns to [_peers] and to nothing else of the
    chain: over any interleaving the name, the member cache, the store,
    the member services, the registrar and the other settings are the
    ones from before. *)
Theorem run_touches_only_peers acts w :
  let c := chain w in
  let c' := chain (run acts w) in
  _name c' = _name c
  ∧ _members c' = _members c
  ∧ _memberServices c' = _memberServices c
  ∧ _keyValStore c' = _keyValStore c
  ∧ _registrar c' = _registrar c
  ∧ _tcertBatchSize c' = _tcertBatchSize c
  ∧ _preFetchMode c' = _preFetchMode c
  ∧ _devMode c' = _devMode c
  ∧ _deployWaitTime c' = _deployWaitTime c
  ∧ _invokeWaitTime c' = _invokeWaitTime c.
Proof.
  intros c c'. pose proof (run_frame acts w) as Hframe. fold c c' in Hframe.
  rewrite <- Hframe. by destruct c'.
Qed.

End Accounting.

(** * Further properties of one dispatch *)

Section OneDispatch.
Implicit Types (w : World) (ps : list Peer) (evs : list SocketEvent).

(** Where a dispatch that waits on attempt [k] can be after any events
    on its socket: waiting on a later attempt, over with the error, or
    over with a connection. *)
Lemma run_probing_cases w tx em ps evs : ∀ k p,
  heap_read (heap w) (_peers (chain w)) = ps →
  ps !! k = Some p →
  let w' := run (on_socket (length (sockets w)) evs)
                (probing w (_peers (chain w)) tx em (take k ps) k p) in
  (∃ k' p', ps !! k' = Some p'
            ∧ w' = probing w (_peers (chain w)) tx em (take k' ps) k' p')
  ∨ w' = exhausted w em ps
  ∨ (∃ k' p', ps !! k' = Some p' ∧ w' = connected w tx em ps k' p').
Proof.
  induction evs as [|ev evs IH]; intros k p Hps Hp w';
    pose proof (lookup_lt_Some _ _ _ Hp) as Hk.
  - left. by exists k, p.
  - unfold w'. simpl run. destruct (is_failure ev) eqn:Hev.
    + destruct (decide (S k = length ps)) as [Hlast|Hmore].
      * right; left.
        rewrite (deliver_failure_last _ _ _ _ ps k p) by done.
        by rewrite run_closed by apply lookup_own_length.
      * destruct (lookup_lt_is_Some_2 ps (S k)) as [p1 Hp1]; [lia|].
        rewrite (deliver_failure_next _ _ _ _ ps k p p1) by done.
        by apply IH.
    + destruct ev; try discriminate. right; right. exists k, p.
      rewrite deliver_connect by done.
      by rewrite run_closed by (destruct k; apply lookup_own_length).
Qed.

Lemma peer_list_connected w tx em ps k p :
  peer_list (chain w) (heap w) = ps →
  peer_list (chain (connected w tx em ps k p)) (heap (connected w tx em ps k p))
  = drop k ps ++ take k ps.
Proof.
  intros Hps. unfold connected, peer_list, getPeers. destruct k as [|k]; simpl.
  - by rewrite app_nil_r.
  - apply heap_read_alloc_new.
Qed.

(** X5. Whatever the network reports on the socket of a dispatch, the
    peer list of the chain afterwards is the list from before, rotated
    by some index: no peer is lost or doubled and the cyclic order is
    kept. *)
Theorem sendTransaction_only_rotates w tx em evs :
  let ps := peer_list (chain w) (heap w) in
  let w' := run (on_socket (length (sockets w)) evs) (sendTransaction tx em w) in
  ∃ i, i ≤ length ps
       ∧ peer_list (chain w') (heap w') = drop i ps ++ take i ps
       ∧ peer_list (chain w') (heap w') ≡ₚ ps
       ∧ length (peer_list (chain w') (heap w')) = length ps.
Proof.
  intros ps w'.
  assert (∃ i, i ≤ length ps ∧ peer_list (chain w') (heap w') = drop i ps ++ take i ps)
    as (i & Hi & Hrot).
  { destruct ps as [|p0 ps'] eqn:Hps.
    - exists 0. unfold w'. rewrite sendTransaction_no_peers by done.
      rewrite run_closed by apply lookup_own_length. by split.
    - assert (ps !! 0 = Some p0) as Hp0 by (by rewrite Hps).
      rewrite <- Hps. unfold w'.
      rewrite (sendTransaction_begins _ _ _ p0) by done. fold ps.
      destruct (run_probing_cases w tx em ps evs 0 p0 eq_refl Hp0)
        as [(k' & p' & Hp' & ->)|[->|(k' & p' & Hp' & ->)]].
      + exists 0. split; [lia|]. simpl. by rewrite app_nil_r.
      + exists 0. split; [lia|]. simpl. by rewrite app_nil_r.
      + exists k'. split; [apply lookup_lt_Some in Hp'; lia|].
        by apply peer_list_connected. }
  exists i. split; [done|]. split; [done|]. rewrite Hrot. split.
  - rewrite Permutation_app_comm. by rewrite take_drop.
  - rewrite length_app, Nat.add_comm, <- length_app. by rewrite take_drop.
Qed.

(** X6. Affinity: once a dispatch has handed its transaction to the
    peer that accepted the probe, the next [sendTransaction] probes that
    peer first, and when it accepts again the list is not assigned a
    second time. *)
Theorem sendTransaction_tries_last_live_peer_first w tx em evs tx2 em2 :
  Forall (λ ev, is_failure ev = true) evs →
  length evs < length (peer_list (chain w) (heap w)) →
  let n := length (sockets w) in
  let w1 := run (on_socket n (evs ++ [ev_connect])) (sendTransaction tx em w) in
  let w2 := run (on_socket n [ev_connect]) (sendTransaction tx2 em2 w1) in
  ∃ p, peer_list (chain w) (heap w) !! length evs = Some p
       ∧ log w2 = log w1 ++ [SocketConnect (getUrl p); SocketDestroy (getUrl p);
                             PeerSendTransaction p tx2 em2]
       ∧ chain w2 = chain w1 ∧ heap w2 = heap w1 ∧ sockets w2 = sockets w.
Proof.
  intros Hall Hlt n w1 w2.
  destruct (sendTransaction_failover_order w tx em evs Hall Hlt)
    as (Hlist & (p & Hp & Hlog) & Hsockets & _).
  fold n w1 in Hlist, Hlog, Hsockets.
  exists p. split; [done|].
  assert (peer_list (chain w1) (heap w1) !! 0 = Some p) as Hhead.
  { rewrite Hlist. rewrite lookup_app_l.
    - by rewrite lookup_drop, Nat.add_0_r.
    - rewrite length_drop. lia. }
  unfold w2. rewrite (sendTransaction_begins _ _ _ p) by done.
  simpl run. replace n with (length (sockets w1)) by (by rewrite Hsockets).
  rewrite (deliver_connect w1 tx2 em2 _ 0 p) by done.
  unfold connected. simpl. by rewrite Hsockets.
Qed.

End OneDispatch.

(** * The array of a chain after a rotation *)

Section OwnArray.
Implicit Types (w : World) (ps : list Peer) (evs : list SocketEvent).

Lemma peer_list_nonempty_valid w :
  0 < length (peer_list (chain w) (heap w)) → _peers (chain w) < length (heap w).
Proof.
  intros Hpos. destruct (decide (_peers (chain w) < length (heap w))); [done|].
  unfold peer_list, getPeers in Hpos. rewrite heap_read_dangling in Hpos by lia.
  simpl in Hpos. lia.
Qed.

(** X9. After a dispatch has rotated the list of a chain, the chain
    has an array of its own, with the rotated order; a chain [B] that
    shares the array of before does not see the rotation, its list has
    the order of before. *)
Theorem rotation_gives_chain_its_own_array w tx em evs (B : Chain) :
  Forall (λ ev, is_failure ev = true) evs →
  0 < length evs < length (peer_list (chain w) (heap w)) →
  _peers B = _peers (chain w) →
  let ps := peer_list (chain w) (heap w) in
  let w1 := run (on_socket (length (sockets w)) (evs ++ [ev_connect]))
                (sendTransaction tx em w) in
  _peers (chain w1) ≠ _peers B
  ∧ peer_list (chain w1) (heap w1) = drop (length evs) ps ++ take (length evs) ps
  ∧ peer_list B (heap w1) = ps.
Proof.
  intros Hall [Hpos Hlt] HB ps w1.
  assert (_peers (chain w) < length (heap w)) as Hvalid
    by (apply peer_list_nonempty_valid; lia).
  destruct (sendTransaction_waits w tx em evs Hall Hlt) as [p [Hp Hrun]].
  fold ps in Hp, Hrun.
  assert (w1 = connected w tx em ps (length evs) p) as Hw1.
  { unfold w1. rewrite on_socket_app, run_app, Hrun. simpl. by apply deliver_connect. }
  rewrite Hw1. split; [|split].
  - destruct (length evs) as [|i]; [lia|]. simpl. rewrite HB. lia.
  - by apply peer_list_connected.
  - unfold peer_list, getPeers. rewrite HB.
    destruct (length evs) as [|i]; [lia|]. simpl. by apply heap_read_alloc.
Qed.

End OwnArray.

(** * Further properties of the identities *)

Section IdentityInvariants.
Context `{MemberModule}.
Implicit Types (s : State) (name : string) (ops : list Op).

Lemma members_get_None name (c : Chain) :
  members_get name c = None →
  _members c !! name = None ∧ name ∉ Object_prototype_keys.
Proof.
  unfold members_get. destruct (_members c !! name); [discriminate|].
  case_bool_decide; [discriminate|done].
Qed.

(** What a [getMember] does to the cache and to the count of members:
    nothing to the cache, or one insertion of a new member under a name
    that the cache did not answer for. *)
Lemma getMember_cache name s :
  let s1 := snd (getMember name s) in
  st_next_member s ≤ st_next_member s1
  ∧ (st_chain s1 = st_chain s
     ∨ (members_get name (st_chain s) = None
        ∧ st_chain s1
          = set_members (<[name := mkMember (st_next_member s) name]>
                           (_members (st_chain s))) (st_chain s)
        ∧ st_next_member s1 = S (st_next_member s))).
Proof.
  intros s1. unfold s1. rewrite getMember_snd. unfold _getMemberHelper.
  destruct (members_get name (st_chain s)) eqn:Hget; simpl.
  - split; [lia|by left].
  - destruct (Member_restoreState _ _ _) as [[[]|err] env]; simpl.
    + split; [lia|]. by right.
    + split; [lia|]. by left.
Qed.

Lemma register_state req s :
  st_chain (snd (register req s)) = st_chain (snd (getMember (enrollmentID req) s))
  ∧ st_next_member (snd (register req s))
    = st_next_member (snd (getMember (enrollmentID req) s)).
Proof.
  unfold register. destruct (getMember _ s) as [[[[m|k]|err]|] s1]; simpl; try done.
  by destruct (Member_register _ _ _ _) as [[err|p] env].
Qed.

Lemma enroll_state name secret s :
  st_chain (snd (enroll name secret s)) = st_chain (snd (getMember name s))
  ∧ st_next_member (snd (enroll name secret s))
    = st_next_member (snd (getMember name s)).
Proof.
  unfold enroll. destruct (getMember _ s) as [[[[m|k]|err]|] s1]; simpl; try done.
  by destruct (Member_enroll _ _ _ _) as [[err|[[[]|err]|]] env].
Qed.

Lemma registerAndEnroll_state req s :
  st_chain (snd (registerAndEnroll req s))
  = st_chain (snd (getMember (enrollmentID req) s))
  ∧ st_next_member (snd (registerAndEnroll req s))
    = st_next_member (snd (getMember (enrollmentID req) s)).
Proof.
  unfold registerAndEnroll.
  destruct (getMember _ s) as [[[[m|k]|err]|] s1]; simpl; try done.
  destruct (Member_isEnrolled _ _); simpl; [done|].
  by destruct (Member_registerAndEnroll _ _ _ _) as [[err|[[[]|err]|]] env].
Qed.

Lemma apply_setter_members (c : Setter) (this : Chain) :
  _members (apply_setter c this) = _members this.
Proof. by destruct c. Qed.

(** Every call leaves the cache alone or inserts one new member. *)
Lemma step_op_cache o s :
  let s1 := step_op o s in
  st_next_member s ≤ st_next_member s1
  ∧ (_members (st_chain s1) = _members (st_chain s)
     ∨ ∃ name, members_get name (st_chain s) = None
        ∧ _members (st_chain s1)
          = <[name := mkMember (st_next_member s) name]> (_members (st_chain s))
        ∧ st_next_member s1 = S (st_next_member s)).
Proof.
  assert (∀ name s1,
    st_chain s1 = st_chain (snd (getMember name s))
    ∧ st_next_member s1 = st_next_member (snd (getMember name s)) →
    st_next_member s ≤ st_next_member s1
    ∧ (_members (st_chain s1) = _members (st_chain s)
       ∨ ∃ name, members_get name (st_chain s) = None
          ∧ _members (st_chain s1)
            = <[name := mkMember (st_next_member s) name]> (_members (st_chain s))
          ∧ st_next_member s1 = S (st_next_member s))) as Hvia.
  { intros name s1 [Hc Hn]. rewrite Hc, Hn.
    destruct (getMember_cache name s) as [Hle [->|(Hnone & -> & ->)]].
    - split; [done|by left].
    - split; [lia|]. right. by exists name. }
  destruct o as [c|name|name|req|name secret|req]; simpl.
  - split; [lia|]. left. apply apply_setter_members.
  - by apply (Hvia name).
  - by apply (Hvia name).
  - apply (Hvia (enrollmentID req)), register_state.
  - apply (Hvia name), enroll_state.
  - apply (Hvia (enrollmentID req)), registerAndEnroll_state.
Qed.

Lemma step_op_cache_wf o s : cache_wf s → cache_wf (step_op o s).
Proof.
  intros [Hname Hinj].
  destruct (step_op_cache o s) as [Hle [Heq|(name & Hnone & Heq & Hnext)]].
  - split.
    + intros n m. rewrite Heq. intros Hm. destruct (Hname n m Hm). split; [done|lia].
    + intros n1 n2 m1 m2. rewrite Heq. apply Hinj.
  - apply members_get_None in Hnone as [Hnone _]. split.
    + intros n m. rewrite Heq, Hnext. rewrite lookup_insert.
      case_decide as Hn.
      * intros [= <-]. simpl. split; [done|lia].
      * intros Hm. destruct (Hname n m Hm). split; [done|lia].
    + intros n1 n2 m1 m2. rewrite Heq, !lookup_insert.
      repeat case_decide; subst.
      * done.
      * intros [= <-] Hm2. simpl. intros Hid.
        destruct (Hname n2 m2 Hm2). lia.
      * intros Hm1 [= <-]. simpl. intros Hid.
        destruct (Hname n1 m1 Hm1). lia.
      * apply Hinj.
Qed.

(** X10. The member cache stays well formed under any sequence of
    setter calls, [getMember], [getUser], [register], [enroll] and
    [registerAndEnroll]: every cached member is filed under its own
    name, and no member object is filed under two names. *)
Theorem run_ops_cache_wf ops : ∀ s, cache_wf s → cache_wf (run_ops ops s).
Proof.
  induction ops as [|o ops IH]; intros s Hwf; [done|].
  simpl. by apply IH, step_op_cache_wf.
Qed.

Lemma step_op_keeps name m o s :
  _members (st_chain s) !! name = Some m →
  _members (st_chain (step_op o s)) !! name = Some m.
Proof.
  intros Hm. destruct (step_op_cache o s) as [_ [->|(other & Hnone & -> & _)]]; [done|].
  apply members_get_None in Hnone as [Hnone _].
  rewrite lookup_insert_ne; [done|]. intros ->. congruence.
Qed.

(** X11. Calls that are awaited one after another evict nothing from
    the member cache and replace nothing in it: a member that is
    cached under a name stays cached under it through any sequence of
    calls, setters included, in which each call is made after the
    promise of the call before it has settled. *)
Theorem run_ops_never_evicts ops : ∀ s name m,
  _members (st_chain s) !! name = Some m →
  _members (st_chain (run_ops ops s)) !! name = Some m.
Proof.
  induction ops as [|o ops IH]; intros s name m Hm; [done|].
  simpl. by apply IH, step_op_keeps.
Qed.

End IdentityInvariants.

Section IdentityOutcomes.
Context `{MemberModule}.
Implicit Types (s : State) (name : string).

Lemma is_configuration_error_spec err :
  err = no_key_value_store ∨ err = no_member_services →
  is_configuration_error err = true.
Proof. unfold is_configuration_error. by intros [->| ->]. Qed.

Lemma getMember_unconfigured name s :
  truthy (_keyValStore (st_chain s)) = false
  ∨ truthy (_memberServices (st_chain s)) = false →
  ∃ err s1, getMember name s = (Some (Rejected err), s1)
            ∧ is_configuration_error err = true
            ∧ ∃ new, st_calls s1 = st_calls s ++ new
                     ∧ Forall (λ c, is_authority_call c = false) new.
Proof.
  intros Hcfg.
  destruct (getMember_unconfigured_rejects name s Hcfg) as (err & Hrej & Herr).
  destruct (getMember_calls name s) as (new & Hnew & Hall).
  destruct (getMember name s) as [p s1]. simpl in *. subst p.
  exists err, s1. split; [done|]. split; [by apply is_configuration_error_spec|].
  by exists new.
Qed.

(** X12. On a chain without a store or without member services,
    [register], [enroll] and [registerAndEnroll] are rejected with the
    configuration error, and none of them calls [register], [enroll] or
    [registerAndEnroll] of a member: the authority is not reached. *)
Theorem unconfigured_chain_never_reaches_authority req name secret s :
  truthy (_keyValStore (st_chain s)) = false
  ∨ truthy (_memberServices (st_chain s)) = false →
  (∃ err, fst (register req s) = Some (Rejected err)
          ∧ is_configuration_error err = true)
  ∧ (∃ err, fst (enroll name secret s) = Some (Rejected err)
            ∧ is_configuration_error err = true)
  ∧ (∃ err, fst (registerAndEnroll req s) = Some (Rejected err)
            ∧ is_configuration_error err = true)
  ∧ ∀ s', s' = snd (register req s) ∨ s' = snd (enroll name secret s)
           ∨ s' = snd (registerAndEnroll req s) →
      ∃ new, st_calls s' = st_calls s ++ new
             ∧ Forall (λ c, is_authority_call c = false) new.
Proof.
  intros Hcfg.
  destruct (getMember_unconfigured (enrollmentID req) s Hcfg)
    as (e1 & s1 & Hg1 & He1 & Hc1).
  destruct (getMember_unconfigured name s Hcfg) as (e2 & s2 & Hg2 & He2 & Hc2).
  unfold register, enroll, registerAndEnroll. rewrite Hg1, Hg2. simpl.
  split; [by exists e1|]. split; [by exists e2|]. split; [by exists e1|].
  by intros s' [->|[->| ->]].
Qed.

(** X13. A promise of [registerAndEnroll] that is fulfilled carries the
    member that [getMember] gave, never [undefined], and the member was
    enrolled already or the promise of its own [registerAndEnroll] was
    fulfilled. *)
Theorem registerAndEnroll_fulfilled_inv req s v s' :
  registerAndEnroll req s = (Some (Fulfilled v), s') →
  ∃ m s1,
    getMember (enrollmentID req) s = (Some (Fulfilled (cv_member m)), s1)
    ∧ v = Some (cv_member m)
    ∧ (Member_isEnrolled m (st_env s1) = true
       ∨ ∃ env, Member_registerAndEnroll req m (st_chain s1) (st_env s1)
                = (Returns (Some (Fulfilled ())), env)).
Proof.
  unfold registerAndEnroll.
  destruct (getMember _ s) as [[[[m|k]|err]|] s1]; simpl; try discriminate.
  destruct (Member_isEnrolled m (st_env s1)) eqn:Henrolled; simpl.
  - intros [= <- <-]. exists m, s1. split; [done|]. split; [done|]. by left.
  - destruct (Member_registerAndEnroll req m (st_chain s1) (st_env s1))
      as [[err|[[[]|err]|]] env] eqn:Hcall; simpl; try discriminate.
    intros [= <- <-]. exists m, s1. split; [done|]. split; [done|].
    right. by exists env.
Qed.

(** X14. A promise of [enroll] that is fulfilled carries the member
    that [getMember] gave, and the promise of the member's own [enroll]
    was fulfilled; when that promise is rejected or the call throws,
    [enroll] is rejected with the same error. *)
Theorem enroll_follows_member name secret s :
  (∀ v s', enroll name secret s = (Some (Fulfilled v), s') →
     ∃ m s1 env,
       getMember name s = (Some (Fulfilled (cv_member m)), s1)
       ∧ v = Some (cv_member m)
       ∧ Member_enroll secret m (st_chain s1) (st_env s1)
         = (Returns (Some (Fulfilled ())), env))
  ∧ (∀ m s1 err env,
       getMember name s = (Some (Fulfilled (cv_member m)), s1) →
       Member_enroll secret m (st_chain s1) (st_env s1)
         = (Returns (Some (Rejected err)), env)
       ∨ Member_enroll secret m (st_chain s1) (st_env s1) = (Throws err, env) →
       fst (enroll name secret s) = Some (Rejected err)).
Proof.
  split.
  - intros v s'. unfold enroll.
    destruct (getMember _ s) as [[[[m|k]|err]|] s1]; simpl; try discriminate.
    destruct (Member_enroll secret m (st_chain s1) (st_env s1))
      as [[err|[[[]|err]|]] env] eqn:Hcall; simpl; try discriminate.
    intros [= <- <-]. by exists m, s1, env.
  - intros m s1 err env Hget Hcall. unfold enroll. rewrite Hget.
    by destruct Hcall as [-> | ->].
Qed.

(** X15. A [getMember] whose member cannot restore its state is rejected
    with the error of the store and caches nothing; the next
    [getMember] for the name constructs another member object and, when
    its state is restored, caches and returns that one. *)
Theorem getMember_failed_restore_not_cached name s err env env2 :
  truthy (_keyValStore (st_chain s)) = true →
  truthy (_memberServices (st_chain s)) = true →
  members_get name (st_chain s) = None →
  let m1 := mkMember (st_next_member s) name in
  let m2 := mkMember (S (st_next_member s)) name in
  Member_restoreState m1 (st_chain s) (st_env s) = (Rejected err, env) →
  Member_restoreState m2 (st_chain s) env = (Fulfilled (), env2) →
  let '(p1, s1) := getMember name s in
  let '(p2, s2) := getMember name s1 in
  p1 = Some (Rejected err)
  ∧ st_chain s1 = st_chain s
  ∧ p2 = Some (Fulfilled (cv_member m2))
  ∧ _members (st_chain s2) !! name = Some m2
  ∧ st_calls s2 = st_calls s ++ [NewMember m1; CallRestoreState m1;
                                 NewMember m2; CallRestoreState m2].
Proof.
  intros Hkv Hms Hget m1 m2 Hr1 Hr2.
  unfold getMember, _getMemberHelper. rewrite Hkv, Hms, Hget. simpl.
  fold m1. rewrite Hr1. simpl. rewrite Hkv, Hms, Hget. simpl.
  fold m2. rewrite Hr2. simpl.
  split; [done|]. split; [done|]. split; [done|].
  split; [apply lookup_insert_eq|]. by rewrite <- !app_assoc.
Qed.

(** X16. For a name that [Object.prototype] defines, such as
    [constructor], the lookup in the cache object answers with the
    inherited property: through any sequence of calls from a cache
    without such a key, [_getMemberHelper] neither constructs nor
    caches a member for the name, and on a configured chain [register]
    for it is rejected with a [TypeError] without a call on a member. *)
Theorem inherited_name_never_gets_member ops s req :
  (∀ k, k ∈ Object_prototype_keys → _members (st_chain s) !! k = None) →
  enrollmentID req ∈ Object_prototype_keys →
  let name := enrollmentID req in
  let s' := run_ops ops s in
  _members (st_chain s') !! name = None
  ∧ _getMemberHelper name s' = (Some (Fulfilled (cv_inherited name)), s')
  ∧ (truthy (_keyValStore (st_chain s')) = true →
     truthy (_memberServices (st_chain s')) = true →
     register req s' = (Some (Rejected (not_a_function "register")), s')).
Proof.
  intros Hfree Hin name s'.
  assert (∀ k, k ∈ Object_prototype_keys → _members (st_chain s') !! k = None)
    as Hfree'.
  { unfold s'. clear s' Hin. revert s Hfree.
    induction ops as [|o ops IH]; intros s Hfree; [done|].
    simpl. apply IH. intros k Hk.
    destruct (step_op_cache o s) as [_ [->|(other & Hnone & -> & _)]]; [by apply Hfree|].
    apply members_get_None in Hnone as [_ Hother].
    rewrite lookup_insert_ne; [by apply Hfree|]. by intros ->. }
  assert (members_get name (st_chain s') = Some (cv_inherited name)) as Hget.
  { unfold members_get. rewrite (Hfree' name Hin). by rewrite bool_decide_eq_true_2. }
  split; [by apply Hfree'|]. split; [by apply _getMemberHelper_hit|].
  intros Hkv Hms. unfold register. fold name.
  by rewrite (getMember_hit name s' _ Hkv Hms Hget).
Qed.

End IdentityOutcomes.

(** * Further properties of the file store *)

Section StoreBehaviour.
Import FileKeyValueStore.
Variable path_join : string → string → string.
Implicit Types (this : KeyValueStore) (fs : gmap string fs_node).

Lemma setValue_fulfilled this name value fs :
  fst (setValue path_join this name value fs) = Some (Fulfilled true) →
  walk (ancestors (path_join (kvs_dir this) name)) fs = None
  ∧ node_at (path_join (kvs_dir this) name) fs ≠ Some fs_dir
  ∧ snd (setValue path_join this name value fs)
    = <[path_join (kvs_dir this) name := fs_file value]> fs.
Proof.
  unfold setValue.
  destruct (writeFile (path_join (kvs_dir this) name) value fs)
    as [[err|] fs'] eqn:Hw; [discriminate|].
  intros _. by apply writeFile_ok in Hw.
Qed.



(** X19. A value survives a new store object: after a fulfilled
    [setValue] by a store whose directory exists, constructing a
    [FileKeyValueStore] on the same directory changes nothing on disk
    and its [getValue] gives the value. *)
Theorem store_survives_new_object this name value fs :
  fs !! kvs_dir this = Some fs_dir →
  fst (setValue path_join this name value fs) = Some (Fulfilled true) →
  let fs1 := snd (setValue path_join this name value fs) in
  let '(this2, fs2) := constructor (kvs_dir this) fs1 in
  this2 = this ∧ fs2 = fs1
  ∧ getValue path_join this2 name fs2 = Some (Fulfilled (js_obj value)).
Proof.
  intros Hdir Hset fs1.
  destruct (setValue_fulfilled _ _ _ _ Hset) as (Hw & Hnd & Hfs1). fold fs1 in Hfs1.
  assert (node_at (kvs_dir this) fs = Some fs_dir) as Hdir0
    by (unfold node_at; by destruct (always_there (kvs_dir this))).
  assert (node_at (kvs_dir this) fs1 = Some fs_dir) as Hdir1.
  { rewrite Hfs1, node_at_insert_ne; [done|]. intros Heq. by rewrite Heq in Hnd. }
  unfold constructor, mkdirsSync. rewrite Hdir1.
  split; [by destruct this|]. split; [done|].
  unfold getValue, readFile. simpl.
  by rewrite Hfs1, walk_insert_file, node_at_insert_eq.
Qed.

End StoreBehaviour.

(** * The guard of the rotation *)

(** X20. When the chain's [_peers] was assigned another array while a
    dispatch was under way, a connection on the socket of that dispatch
    still hands the transaction to the peer it probed, and it leaves
    the chain and every array as they are: the newer list is not
    overwritten by a rotation of the older one. *)
Theorem stale_dispatch_delivers_without_rotating (w : World) k sk :
  sockets w !! k = Some sk →
  socket_ok (heap w) sk →
  _peers (chain w) ≠ sk_peers sk →
  let w' := deliver k ev_connect w in
  ∃ p, heap_read (heap w) (sk_peers sk) !! sk_pidx sk = Some p
       ∧ log w' = log w ++ [SocketDestroy (sk_url sk);
                            PeerSendTransaction p (sk_tx sk) (sk_emitter sk)]
       ∧ chain w' = chain w ∧ heap w' = heap w
       ∧ sockets w' = delete k (sockets w).
Proof.
  intros Hk [p Hp] Hne. exists p. split; [done|].
  unfold deliver. rewrite Hk. unfold onConnect. rewrite Hp.
  assert ((sk_peers sk =? _peers (chain w)) = false) as ->
    by (apply Nat.eqb_neq; congruence).
  rewrite andb_false_r. simpl. by rewrite <- app_assoc.
Qed.

(** * The further properties at work on concrete chains *)

Lemma world_ok_three_peers : world_ok three_peers.
Proof.
  split.
  - change (Forall (socket_ok (heap three_peers)) []). constructor.
  - change (no_uncaught []). apply not_elem_of_nil.
Defined.

Lemma run_never_dereferences_missing_peer_witness :
  world_ok three_peers ∧ world_ok (run two_dispatches three_peers).
Proof.
  split; [exact world_ok_three_peers|].
  exact (run_never_dereferences_missing_peer two_dispatches three_peers
           world_ok_three_peers).
Defined.

(** Two calls on peers with a port: nothing throws, two terminal
    signals, no socket left. *)
Lemma run_checked_one_signal_per_call_witness :
  world_ok three_peers
  ∧ run_checked net_connect two_dispatches three_peers
    = Done (run two_dispatches three_peers)
  ∧ terminal_count (log (run two_dispatches three_peers))
    + length (sockets (run two_dispatches three_peers)) = 0 + 0 + 2
  ∧ sockets (run two_dispatches three_peers) = [].
Proof.
  split; [exact world_ok_three_peers|].
  assert (run_checked net_connect two_dispatches three_peers
          = Done (run two_dispatches three_peers)) as H1 by (vm_compute; reflexivity).
  split; [exact H1|]. split; [|reflexivity].
  exact (proj2 (run_checked_one_signal_per_call net_connect two_dispatches three_peers
                  world_ok_three_peers) _ H1).
Defined.




(** After [P1] took the first transaction it is probed first for the
    second one. *)
Lemma sendTransaction_tries_last_live_peer_first_witness :
  Forall (λ ev, is_failure ev = true) [ev_error]
  ∧ length [ev_error] < length (peer_list (chain three_peers) (heap three_peers))
  ∧ let w1 := run (on_socket 0 [ev_error; ev_connect])
                  (sendTransaction "tx1" 1 three_peers) in
    let w2 := run (on_socket 0 [ev_connect]) (sendTransaction "tx2" 2 w1) in
    log w2 = log w1 ++ [SocketConnect (getUrl P1); SocketDestroy (getUrl P1);
                        PeerSendTransaction P1 "tx2" 2].
Proof.
  assert (Forall (λ ev, is_failure ev = true) [ev_error]) as H1
    by (repeat constructor).
  assert (length [ev_error] < length (peer_list (chain three_peers) (heap three_peers)))
    as H2 by (vm_compute; lia).
  split; [exact H1|]. split; [exact H2|].
  destruct (sendTransaction_tries_last_live_peer_first three_peers "tx1" 1 [ev_error]
              "tx2" 2 H1 H2) as (p & Hp & Hlog & _).
  vm_compute in Hp. injection Hp as <-. exact Hlog.
Defined.

(** After the rotation of the list of [c] to [P1; P2; P0], a chain [B]
    on the array of the class body still has [P0; P1; P2]. *)
Lemma rotation_gives_chain_its_own_array_witness :
  Forall (λ ev, is_failure ev = true) [ev_error]
  ∧ 0 < length [ev_error] < length (peer_list (chain three_peers) (heap three_peers))
  ∧ _peers (constructor "B") = _peers (chain three_peers)
  ∧ let w1 := run (on_socket 0 [ev_error; ev_connect])
                  (sendTransaction "tx" 7 three_peers) in
    peer_list (chain w1) (heap w1) = [P1; P2; P0]
    ∧ peer_list (constructor "B") (heap w1) = [P0; P1; P2].
Proof.
  assert (Forall (λ ev, is_failure ev = true) [ev_error]) as H1
    by (repeat constructor).
  assert (0 < length [ev_error]
          < length (peer_list (chain three_peers) (heap three_peers))) as H2
    by (vm_compute; lia).
  assert (_peers (constructor "B") = _peers (chain three_peers)) as H3 by reflexivity.
  split; [exact H1|]. split; [exact H2|]. split; [exact H3|].
  destruct (rotation_gives_chain_its_own_array three_peers "tx" 7 [ev_error]
              (constructor "B") H1 H2 H3) as (_ & HA & HB).
  split; [exact HA|exact HB].
Defined.

Lemma cache_wf_fresh_state : cache_wf (fresh_state all_enrolled 0).
Proof.
  split.
  - intros name m Hm. exfalso.
    change ((∅ : gmap string Member) !! name = Some m) in Hm.
    rewrite lookup_empty in Hm. discriminate Hm.
  - intros n1 n2 m1 m2 Hm. exfalso.
    change ((∅ : gmap string Member) !! n1 = Some m1) in Hm.
    rewrite lookup_empty in Hm. discriminate Hm.
Defined.

Lemma run_ops_cache_wf_witness :
  cache_wf (fresh_state all_enrolled 0)
  ∧ cache_wf (@run_ops all_enrolled some_calls (fresh_state all_enrolled 0)).
Proof.
  split; [exact cache_wf_fresh_state|].
  exact (@run_ops_cache_wf all_enrolled some_calls _ cache_wf_fresh_state).
Defined.

(** alice stays cached while the store is taken away and other
    identities are looked up. *)
Lemma run_ops_never_evicts_witness :
  let s1 := snd (@getMember all_enrolled "alice" (fresh_state all_enrolled 0)) in
  _members (st_chain s1) !! "alice" = Some alice
  ∧ _members (st_chain (@run_ops all_enrolled some_calls s1)) !! "alice" = Some alice.
Proof.
  intros s1.
  assert (_members (st_chain s1) !! "alice" = Some alice) as H1
    by (vm_compute; reflexivity).
  split; [exact H1|].
  exact (@run_ops_never_evicts all_enrolled some_calls s1 "alice" alice H1).
Defined.

Lemma unconfigured_chain_never_reaches_authority_witness :
  let s := @mkState all_enrolled chain_without_services 0 0 [] in
  (truthy (_keyValStore (st_chain s)) = false
   ∨ truthy (_memberServices (st_chain s)) = false)
  ∧ fst (@register all_enrolled alice_request s) = Some (Rejected no_member_services)
  ∧ st_env (snd (@register all_enrolled alice_request s)) = 0
  ∧ ∃ new, st_calls (snd (@register all_enrolled alice_request s)) = st_calls s ++ new
           ∧ Forall (λ c, is_authority_call c = false) new.
Proof.
  intros s.
  assert (truthy (_keyValStore (st_chain s)) = false
          ∨ truthy (_memberServices (st_chain s)) = false) as H1
    by (right; reflexivity).
  split; [exact H1|]. split; [reflexivity|]. split; [reflexivity|].
  destruct (@unconfigured_chain_never_reaches_authority all_enrolled
              alice_request "bob" "secret" s H1) as (_ & _ & _ & Hcalls).
  exact (Hcalls _ (or_introl eq_refl)).
Defined.

Lemma registerAndEnroll_fulfilled_inv_witness :
  let s := @mkState flaky_store configured_chain 1 0 [] in
  let s' := snd (@registerAndEnroll flaky_store alice_request s) in
  @registerAndEnroll flaky_store alice_request s
    = (Some (Fulfilled (Some (cv_member alice))), s')
  ∧ ∃ m s1,
      @getMember flaky_store (enrollmentID alice_request) s
        = (Some (Fulfilled (cv_member m)), s1)
      ∧ Some (cv_member alice) = Some (cv_member m)
      ∧ (@Member_isEnrolled flaky_store m (st_env s1) = true
         ∨ ∃ env, @Member_registerAndEnroll flaky_store alice_request m
                    (st_chain s1) (st_env s1) = (Returns (Some (Fulfilled ())), env)).
Proof.
  intros s s'.
  assert (@registerAndEnroll flaky_store alice_request s
          = (Some (Fulfilled (Some (cv_member alice))), s')) as H1
    by (vm_compute; reflexivity).
  split; [exact H1|].
  exact (@registerAndEnroll_fulfilled_inv flaky_store alice_request s _ s' H1).
Defined.

Lemma enroll_follows_member_witness :
  let s := fresh_state refusing_authority () in
  let s1 := snd (@getMember refusing_authority "alice" s) in
  @getMember refusing_authority "alice" s = (Some (Fulfilled (cv_member alice)), s1)
  ∧ @Member_enroll refusing_authority "secret" alice (st_chain s1) (st_env s1)
    = (Returns (Some (Rejected "enrollment refused")), ())
  ∧ fst (@enroll refusing_authority "alice" "secret" s)
    = Some (Rejected "enrollment refused").
Proof.
  intros s s1.
  assert (@getMember refusing_authority "alice" s
          = (Some (Fulfilled (cv_member alice)), s1)) as H1
    by (vm_compute; reflexivity).
  assert (@Member_enroll refusing_authority "secret" alice (st_chain s1) (st_env s1)
          = (Returns (Some (Rejected "enrollment refused")), ())) as H2
    by reflexivity.
  split; [exact H1|]. split; [exact H2|].
  exact (proj2 (@enroll_follows_member refusing_authority "alice" "secret" s)
           alice s1 "enrollment refused" () H1 (or_introl H2)).
Defined.

Lemma getMember_failed_restore_not_cached_witness :
  let s := fresh_state flaky_store 0 in
  truthy (_keyValStore (st_chain s)) = true
  ∧ truthy (_memberServices (st_chain s)) = true
  ∧ members_get "alice" (st_chain s) = None
  ∧ @Member_restoreState flaky_store (mkMember 0 "alice") (st_chain s) (st_env s)
    = (Rejected "EIO", 1)
  ∧ @Member_restoreState flaky_store (mkMember 1 "alice") (st_chain s) 1
    = (Fulfilled (), 2)
  ∧ let '(p1, s1) := @getMember flaky_store "alice" s in
    let '(p2, s2) := @getMember flaky_store "alice" s1 in
    p1 = Some (Rejected "EIO")
    ∧ st_chain s1 = st_chain s
    ∧ p2 = Some (Fulfilled (cv_member (mkMember 1 "alice")))
    ∧ _members (st_chain s2) !! "alice" = Some (mkMember 1 "alice")
    ∧ st_calls s2 = st_calls s ++ [NewMember (mkMember 0 "alice");
                                   CallRestoreState (mkMember 0 "alice");
                                   NewMember (mkMember 1 "alice");
                                   CallRestoreState (mkMember 1 "alice")].
Proof.
  intros s.
  assert (truthy (_keyValStore (st_chain s)) = true) as H1 by reflexivity.
  assert (truthy (_memberServices (st_chain s)) = true) as H2 by reflexivity.
  assert (members_get "alice" (st_chain s) = None) as H3 by (vm_compute; reflexivity).
  assert (@Member_restoreState flaky_store (mkMember 0 "alice") (st_chain s) (st_env s)
          = (Rejected "EIO", 1)) as H4 by reflexivity.
  assert (@Member_restoreState flaky_store (mkMember 1 "alice") (st_chain s) 1
          = (Fulfilled (), 2)) as H5 by reflexivity.
  split; [exact H1|]. split; [exact H2|]. split; [exact H3|].
  split; [exact H4|]. split; [exact H5|].
  exact (@getMember_failed_restore_not_cached flaky_store "alice" s "EIO" 1 2
           H1 H2 H3 H4 H5).
Defined.

Lemma inherited_name_never_gets_member_witness :
  let s := fresh_state all_enrolled 0 in
  let req := mkRegistrationRequest "constructor" "bank_a" in
  let s' := @run_ops all_enrolled [OpGetMember "alice"; OpRegister req] s in
  (∀ k, k ∈ Object_prototype_keys → _members (st_chain s) !! k = None)
  ∧ enrollmentID req ∈ Object_prototype_keys
  ∧ _members (st_chain s') !! "constructor" = None
  ∧ @register all_enrolled req s'
    = (Some (Rejected (not_a_function "register")), s').
Proof.
  intros s req s'.
  assert (∀ k, k ∈ Object_prototype_keys → _members (st_chain s) !! k = None) as H1
    by (intros k _; apply lookup_empty).
  assert (enrollmentID req ∈ Object_prototype_keys) as H2
    by (apply (bool_decide_unpack _); vm_compute; exact I).
  split; [exact H1|]. split; [exact H2|].
  destruct (@inherited_name_never_gets_member all_enrolled
              [OpGetMember "alice"; OpRegister req] s req H1 H2) as (Hnone & _ & Hreg).
  split; [exact Hnone|].
  exact (Hreg eq_refl eq_refl).
Defined.


Lemma store_survives_new_object_witness :
  let join := FileKeyValueStore.join_plain in
  let fs := FileKeyValueStore.fresh_fs in
  let fs1 := snd (FileKeyValueStore.setValue join a_store "keyValFileStoreKey"
                    "secretKeyValue" fs) in
  fs !! kvs_dir a_store = Some FileKeyValueStore.fs_dir
  ∧ fst (FileKeyValueStore.setValue join a_store "keyValFileStoreKey"
           "secretKeyValue" fs) = Some (Fulfilled true)
  ∧ FileKeyValueStore.getValue join
      (fst (FileKeyValueStore.constructor (kvs_dir a_store) fs1))
      "keyValFileStoreKey"
      (snd (FileKeyValueStore.constructor (kvs_dir a_store) fs1))
    = Some (Fulfilled (js_obj "secretKeyValue")).
Proof.
  intros join fs fs1.
  assert (fs !! kvs_dir a_store = Some FileKeyValueStore.fs_dir) as H1
    by (vm_compute; reflexivity).
  assert (fst (FileKeyValueStore.setValue join a_store "keyValFileStoreKey"
                 "secretKeyValue" fs) = Some (Fulfilled true)) as H2
    by (vm_compute; reflexivity).
  split; [exact H1|]. split; [exact H2|].
  pose proof (store_survives_new_object join a_store "keyValFileStoreKey"
                "secretKeyValue" fs H1 H2) as H3.
  exact (proj2 (proj2 H3)).
Defined.

(** The first dispatch of [two_dispatches] connects to [P2] after the
    second one has rotated the list: [P2] gets its transaction and the
    list stays [P1; P2; P0]. *)
Lemma stale_dispatch_delivers_without_rotating_witness :
  let w := run [ CallSendTransaction "tx1" 1; CallSendTransaction "tx2" 2;
                 OnSocket 0 ev_error; OnSocket 0 ev_error; OnSocket 0 ev_timeout;
                 OnSocket 0 ev_connect ] three_peers in
  let sk := mkSocket 0 2 "tx1" 1 (getUrl P2) in
  sockets w !! 0 = Some sk
  ∧ socket_ok (heap w) sk
  ∧ _peers (chain w) ≠ sk_peers sk
  ∧ let w' := deliver 0 ev_connect w in
    peer_list (chain w') (heap w') = [P1; P2; P0]
    ∧ log w' = log w ++ [SocketDestroy (getUrl P2); PeerSendTransaction P2 "tx1" 1].
Proof.
  intros w sk.
  assert (sockets w !! 0 = Some sk) as H1 by (vm_compute; reflexivity).
  assert (socket_ok (heap w) sk) as H2 by (exists P2; vm_compute; reflexivity).
  assert (_peers (chain w) ≠ sk_peers sk) as H3 by (vm_compute; discriminate).
  split; [exact H1|]. split; [exact H2|]. split; [exact H3|].
  destruct (stale_dispatch_delivers_without_rotating w 0 sk H1 H2 H3)
    as (p & Hp & Hlog & Hchain & Hheap & _).
  vm_compute in Hp. injection Hp as <-.
  split; [|exact Hlog].
  rewrite Hchain, Hheap. vm_compute. reflexivity.
Defined.
